(** * file_tree.utils.FixedThreadPoolExecutor

    A model of the fixed-size thread pool of [src/file_tree/utils.py]
    ([FixedThreadPoolExecutor] and its [ThreadedWorker] threads) and the
    properties of its submission, draining, shutdown and result views.

    The executor's methods are written in two small monads: [M] for the
    methods that run without waiting (state and Python exceptions), and [B]
    for the methods that wait on the worker threads ([drain], [close],
    [stop], [terminate], [__exit__]).  Worker threads advance by atomic
    steps ([worker_step]); a schedule says which workers step while the
    calling thread waits or sits between two of its own actions.

    What the model takes for granted:
    - one thread owns the executor and calls its methods; the workers are
      the only other threads;
    - a submitted callable is a function of its arguments: it returns a
      value or raises, and does not touch the executor;
    - time is left out: a worker waiting in [get] on an empty queue
      either is not scheduled (the timeout has not elapsed) or takes a
      step, and that step is the timeout;
    - [submit] and the property [is_alive] are taken as one action each
      ([task_count] and the id generator are private to the calling
      thread, and a thread that is over stays so). *)

From stdpp Require Import gmap strings pretty list sorting.

(** ** Python values, exceptions, results *)

Inductive pyobj :=
| PyNone
| PyBool (b : bool)
| PyInt (z : Z)
| PyStr (s : string).

(** An exception instance: the name of its class and its message. *)
Inductive pyexc := Exc (cls msg : string).

Definition exc_class (e : pyexc) : string := let 'Exc c _ := e in c.

Global Instance pyobj_eq_dec : EqDecision pyobj.
Proof. solve_decision. Defined.
Global Instance pyexc_eq_dec : EqDecision pyexc.
Proof. solve_decision. Defined.

(** [queue.Empty], and the built-in errors the executor can run into. *)
Definition Empty : pyexc := Exc "Empty" "".
Definition AttributeError (attr : string) : pyexc := Exc "AttributeError" attr.
Definition TypeError (msg : string) : pyexc := Exc "TypeError" msg.
Definition ValueError (msg : string) : pyexc := Exc "ValueError" msg.
Definition KeyError (msg : string) : pyexc := Exc "KeyError" msg.

(** The classes that derive from [BaseException] without deriving from
    [Exception]: an [except Exception] clause lets them through. *)
Definition base_only : list string :=
  ["BaseException"; "KeyboardInterrupt"; "SystemExit"; "GeneratorExit"].

Definition is_Exception (e : pyexc) : bool :=
  negb (bool_decide (exc_class e ∈ base_only)).

Definition is_Empty (e : pyexc) : bool := bool_decide (exc_class e = "Empty").

Inductive result (A : Type) :=
| Ok (a : A)
| Raise (e : pyexc).
Arguments Ok {A} a.
Arguments Raise {A} e.

(** Python truth value of what [_execute_next_task] returns: [True],
    [False], or [None] when the function falls off its end. *)
Definition truthy (r : option bool) : bool :=
  match r with Some b => b | None => false end.

(** ** The task queue ([queue.Queue] of the standard library) *)

(** A submitted callable with the arguments captured at [submit]:
    [func( *args, **kwargs)] either returns a value or raises. *)
Definition callable : Type := list pyobj → list (string * pyobj) → result pyobj.

(** What travels on the queue: the tuple [(id, func, args, kwargs)] that
    [submit] builds, or the marker object [_CYANIDE]. *)
Inductive entry :=
| Task (id : nat) (func : callable) (args : list pyobj) (kwargs : list (string * pyobj))
| _CYANIDE.

Definition entry_id (x : entry) : option nat :=
  match x with Task id _ _ _ => Some id | _CYANIDE => None end.

Definition is_sentinel (x : entry) : bool :=
  match x with Task _ _ _ _ => false | _CYANIDE => true end.

(** [Queue()] has no capacity bound.  [unfinished_tasks] is the counter
    that [put] increments, [task_done] decrements and [join] waits on. *)
Record Queue := {
  items : list entry;
  unfinished_tasks : nat
}.

Definition Queue_new : Queue := {| items := []; unfinished_tasks := 0 |}.

(** [put(item, timeout=...)]: with no bound on the size the call never
    waits and never raises [Full]; every item put is counted. *)
Definition Queue_put (x : entry) (q : Queue) : Queue :=
  {| items := items q ++ [x]; unfinished_tasks := S (unfinished_tasks q) |}.

(** [get(timeout=...)] at the moment it returns: the oldest item, or
    [Empty] when the timeout elapsed on an empty queue. *)
Definition Queue_get (q : Queue) : result entry * Queue :=
  match items q with
  | [] => (Raise Empty, q)
  | x :: rest => (Ok x, {| items := rest; unfinished_tasks := unfinished_tasks q |})
  end.

(** [task_done()]: one less unfinished task; [ValueError] below zero. *)
Definition Queue_task_done (q : Queue) : result unit * Queue :=
  match unfinished_tasks q with
  | 0 => (Raise (ValueError "task_done() called too many times"), q)
  | S n => (Ok tt, {| items := items q; unfinished_tasks := n |})
  end.

(** [join()] returns once this holds, and waits as long as it does not. *)
Definition Queue_joinable (q : Queue) : bool := bool_decide (unfinished_tasks q = 0).

(** ** Worker threads and the executor *)

(** Where a [ThreadedWorker] thread stands in [run]. *)
Inductive wpc :=
| Fetching                   (* inside self._tasks.get(timeout=self.timeout) *)
| Got (x : entry)            (* get returned x *)
| Marking (id : nat)         (* outcome of task id stored; task_done() comes next *)
| Returned (r : option bool) (* _execute_next_task returned r; the loop test comes next *)
| Dead.                      (* run() is over: is_alive() is False *)

Record ThreadedWorker := {
  index : nat;
  keyboard_interrupted : bool;
  pc : wpc
}.

(** What was done to the queue, oldest first.  No code reads it: it is the
    record against which the counter [unfinished_tasks] is audited. *)
Inductive action :=
| A_put (x : entry)
| A_task_done (id : nat).

(** The executor object and the threads it started.  The fields up to
    [_workers] are the attributes [__init__] binds on [self] (the field
    [size] is spelled [pool_size] here, [_lock] is implicit in the
    atomicity of a step).  [_workers] holds the positions of the workers
    in [threads]; [None] is Python's [None].  [_run_event] is the one
    [Event] object that the executor and every worker share.  [timeout]
    is kept as a number of milliseconds; no step depends on its value.
    [threads] are the threads started by [__init__], [stderr] is what
    [traceback.print_exc()] wrote, [history] is explained above. *)
Record system := {
  pool_size : nat;
  timeout : nat;
  print_exceptions : bool;
  task_count : nat;
  _returns : gmap nat pyobj;
  _exceptions : gmap nat pyexc;
  _id_creator : nat;
  _tasks : Queue;
  _run_event : bool;
  _workers : option (list nat);
  threads : list ThreadedWorker;
  stderr : list pyexc;
  history : list action
}.

Definition set_task_count (n : nat) (s : system) : system :=
  {| pool_size := pool_size s; timeout := timeout s; print_exceptions := print_exceptions s;
     task_count := n; _returns := _returns s; _exceptions := _exceptions s;
     _id_creator := _id_creator s; _tasks := _tasks s; _run_event := _run_event s;
     _workers := _workers s; threads := threads s; stderr := stderr s; history := history s |}.

Definition set_returns (m : gmap nat pyobj) (s : system) : system :=
  {| pool_size := pool_size s; timeout := timeout s; print_exceptions := print_exceptions s;
     task_count := task_count s; _returns := m; _exceptions := _exceptions s;
     _id_creator := _id_creator s; _tasks := _tasks s; _run_event := _run_event s;
     _workers := _workers s; threads := threads s; stderr := stderr s; history := history s |}.

Definition set_exceptions (m : gmap nat pyexc) (s : system) : system :=
  {| pool_size := pool_size s; timeout := timeout s; print_exceptions := print_exceptions s;
     task_count := task_count s; _returns := _returns s; _exceptions := m;
     _id_creator := _id_creator s; _tasks := _tasks s; _run_event := _run_event s;
     _workers := _workers s; threads := threads s; stderr := stderr s; history := history s |}.

Definition set_id_creator (n : nat) (s : system) : system :=
  {| pool_size := pool_size s; timeout := timeout s; print_exceptions := print_exceptions s;
     task_count := task_count s; _returns := _returns s; _exceptions := _exceptions s;
     _id_creator := n; _tasks := _tasks s; _run_event := _run_event s;
     _workers := _workers s; threads := threads s; stderr := stderr s; history := history s |}.

Definition set_tasks (q : Queue) (s : system) : system :=
  {| pool_size := pool_size s; timeout := timeout s; print_exceptions := print_exceptions s;
     task_count := task_count s; _returns := _returns s; _exceptions := _exceptions s;
     _id_creator := _id_creator s; _tasks := q; _run_event := _run_event s;
     _workers := _workers s; threads := threads s; stderr := stderr s; history := history s |}.

Definition set_run_event (b : bool) (s : system) : system :=
  {| pool_size := pool_size s; timeout := timeout s; print_exceptions := print_exceptions s;
     task_count := task_count s; _returns := _returns s; _exceptions := _exceptions s;
     _id_creator := _id_creator s; _tasks := _tasks s; _run_event := b;
     _workers := _workers s; threads := threads s; stderr := stderr s; history := history s |}.

Definition set_workers (ws : option (list nat)) (s : system) : system :=
  {| pool_size := pool_size s; timeout := timeout s; print_exceptions := print_exceptions s;
     task_count := task_count s; _returns := _returns s; _exceptions := _exceptions s;
     _id_creator := _id_creator s; _tasks := _tasks s; _run_event := _run_event s;
     _workers := ws; threads := threads s; stderr := stderr s; history := history s |}.

Definition set_threads (ts : list ThreadedWorker) (s : system) : system :=
  {| pool_size := pool_size s; timeout := timeout s; print_exceptions := print_exceptions s;
     task_count := task_count s; _returns := _returns s; _exceptions := _exceptions s;
     _id_creator := _id_creator s; _tasks := _tasks s; _run_event := _run_event s;
     _workers := _workers s; threads := ts; stderr := stderr s; history := history s |}.

Definition set_stderr (l : list pyexc) (s : system) : system :=
  {| pool_size := pool_size s; timeout := timeout s; print_exceptions := print_exceptions s;
     task_count := task_count s; _returns := _returns s; _exceptions := _exceptions s;
     _id_creator := _id_creator s; _tasks := _tasks s; _run_event := _run_event s;
     _workers := _workers s; threads := threads s; stderr := l; history := history s |}.

Definition set_history (h : list action) (s : system) : system :=
  {| pool_size := pool_size s; timeout := timeout s; print_exceptions := print_exceptions s;
     task_count := task_count s; _returns := _returns s; _exceptions := _exceptions s;
     _id_creator := _id_creator s; _tasks := _tasks s; _run_event := _run_event s;
     _workers := _workers s; threads := threads s; stderr := stderr s; history := h |}.

Definition set_pc (p : wpc) (w : ThreadedWorker) : ThreadedWorker :=
  {| index := index w; keyboard_interrupted := keyboard_interrupted w; pc := p |}.

Definition set_keyboard_interrupted (b : bool) (w : ThreadedWorker) : ThreadedWorker :=
  {| index := index w; keyboard_interrupted := b; pc := pc w |}.

(** [Thread.is_alive()] *)
Definition Thread_is_alive (w : ThreadedWorker) : bool :=
  match pc w with Dead => false | _ => true end.

(** ** The monad of the methods that do not wait *)

Definition M (A : Type) : Type := system → result A * system.

Global Instance M_ret : MRet M := λ A a s, (Ok a, s).
Global Instance M_bind : MBind M := λ A B k m s,
  match m s with
  | (Ok a, s') => k a s'
  | (Raise e, s') => (Raise e, s')
  end.

Definition raise {A} (e : pyexc) : M A := λ s, (Raise e, s).
Definition gets {A} (f : system → A) : M A := λ s, (Ok (f s), s).
Definition modify (f : system → system) : M unit := λ s, (Ok tt, f s).

(** [try: body  except <class>: handler] *)
Definition try_except {A} (body : M A) (caught : pyexc → bool) (handler : pyexc → M A) : M A :=
  λ s, match body s with
       | (Ok a, s') => (Ok a, s')
       | (Raise e, s') => if caught e then handler e s' else (Raise e, s')
       end.

(** [if c: body] *)
Definition when (c : bool) (body : M unit) : M unit := if c then body else mret tt.

(** [self._tasks.put(x, timeout=self.timeout)] *)
Definition tasks_put (x : entry) : M unit :=
  modify (λ s, set_history (history s ++ [A_put x]) (set_tasks (Queue_put x (_tasks s)) s)).

(** [self._tasks.get(timeout=self.timeout)] *)
Definition tasks_get : M entry :=
  λ s, let '(r, q) := Queue_get (_tasks s) in (r, set_tasks q s).

(** [self._tasks.task_done()], called for the task [id] *)
Definition tasks_task_done (id : nat) : M unit :=
  λ s, match Queue_task_done (_tasks s) with
       | (Ok _, q) => (Ok tt, set_history (history s ++ [A_task_done id]) (set_tasks q s))
       | (Raise e, q) => (Raise e, set_tasks q s)
       end.

(** ** [FixedThreadPoolExecutor]: construction and the methods that do not wait *)

(** [ThreadedWorker.__init__]: the flag is cleared and the thread is
    started at once ([self.start()]), so it stands at its first [get]. *)
Definition ThreadedWorker_init (i : nat) : ThreadedWorker :=
  {| index := i; keyboard_interrupted := false; pc := Fetching |}.

(** [FixedThreadPoolExecutor.__init__(size, timeout, print_exceptions)] *)
Definition __init__ (size timeout : nat) (print_exceptions : bool) : system :=
  {| pool_size := size; timeout := timeout; print_exceptions := print_exceptions;
     task_count := 0; _returns := ∅; _exceptions := ∅; _id_creator := 0;
     _tasks := Queue_new; _run_event := false;
     _workers := Some (seq 0 size);
     threads := ThreadedWorker_init <$> seq 0 size;
     stderr := []; history := [] |}.

(** [six.next(self._id_creator)] on [itertools.count()] *)
Definition next_id : M nat :=
  λ s, (Ok (_id_creator s), set_id_creator (S (_id_creator s)) s).

(** [submit(func, *args, **kwargs)] *)
Definition submit (func : callable) (args : list pyobj) (kwargs : list (string * pyobj)) : M unit :=
  n ← gets task_count;
  modify (set_task_count (n + 1));;
  id ← next_id;
  tasks_put (Task id func args kwargs).

(** [worker.is_alive()] for the worker stored at position [i] *)
Definition worker_is_alive (ts : list ThreadedWorker) (i : nat) : bool :=
  match ts !! i with Some w => Thread_is_alive w | None => false end.

(** The property [is_alive]: iterating [None] is a [TypeError]. *)
Definition is_alive : M bool :=
  ws ← gets _workers;
  match ws with
  | None => raise (TypeError "'NoneType' object is not iterable")
  | Some l => ts ← gets threads; mret (existsb (worker_is_alive ts) l)
  end.

(** [sorted(d)]: the keys of the dict in ascending order *)
Definition sorted {V} (d : gmap nat V) : list nat := merge_sort (≤) (elements (dom d)).

(** [d[k]] *)
Definition dict_getitem {V} (d : gmap nat V) (k : nat) : M V :=
  match d !! k with
  | Some v => mret v
  | None => raise (KeyError (pretty k))
  end.

(** [[f(k) for k in l]] *)
Fixpoint comprehension {A V} (f : A → M V) (l : list A) : M (list V) :=
  match l with
  | [] => mret []
  | k :: l' => v ← f k; vs ← comprehension f l'; mret (v :: vs)
  end.

(** The property [returns]: [[self._returns[k] for k in sorted(self._returns)]] *)
Definition returns : M (list pyobj) :=
  d ← gets _returns;
  comprehension (dict_getitem d) (sorted d).

(** The property [exceptions] *)
Definition exceptions : M (list pyexc) :=
  d ← gets _exceptions;
  comprehension (dict_getitem d) (sorted d).

(** [raise_first()] *)
Definition raise_first : M unit :=
  exceptions ← exceptions;
  match exceptions with
  | [] => mret tt
  | first :: _ => raise first
  end.

(** [func( *args, **kwargs)] *)
Definition call (func : callable) (args : list pyobj) (kwargs : list (string * pyobj)) : M pyobj :=
  λ s, (func args kwargs, s).

(** [traceback.print_exc()] under [self._lock] *)
Definition print_exc (e : pyexc) : M unit :=
  modify (λ s, set_stderr (stderr s ++ [e]) s).

(** [_execute_task], the [try] statement: call the task and store its
    result, or store the [Exception] it raised. *)
Definition _execute_task_record (id : nat) (func : callable)
    (args : list pyobj) (kwargs : list (string * pyobj)) : M unit :=
  try_except
    (result ← call func args kwargs;
     modify (λ s, set_returns (<[id := result]> (_returns s)) s))
    is_Exception
    (λ e,
     modify (λ s, set_exceptions (<[id := e]> (_exceptions s)) s);;
     pe ← gets print_exceptions;
     when pe (print_exc e)).

(** [_execute_task(id, func, args, kwargs)] *)
Definition _execute_task (id : nat) (func : callable)
    (args : list pyobj) (kwargs : list (string * pyobj)) : M unit :=
  _execute_task_record id func args kwargs;;
  tasks_task_done id.

(** [_execute_next_task()]: [Some true] and [Some false] are the two
    [return] statements; after [except Empty: pass] the function ends
    without one and the caller receives [None]. *)
Definition _execute_next_task : M (option bool) :=
  try_except
    (task ← tasks_get;
     match task with
     | _CYANIDE => mret (Some false)
     | Task id func args kwargs =>
         _execute_task id func args kwargs;;
         mret (Some true)
     end)
    is_Empty
    (λ _, mret None).

(** [ThreadedWorker.run], the test of its loop:
    [not self.executor._execute_next_task() or self.keyboard_interrupted
     or self.run_event.is_set()] *)
Definition run_breaks (r : option bool) (w : ThreadedWorker) (s : system) : bool :=
  negb (truthy r) || keyboard_interrupted w || _run_event s.

(** [__enter__]: [return self] *)
Definition __enter__ : M system := λ self, (Ok self, self).

(** ** The worker threads, step by step *)

Definition goto (i : nat) (p : wpc) (s : system) : system :=
  set_threads (alter (set_pc p) i (threads s)) s.

(** Where an exception leaves a worker that is inside
    [_execute_next_task]: [except Empty] turns it into the result [None],
    anything else ends [run] and with it the thread. *)
Definition unwind (e : pyexc) : wpc :=
  if is_Empty e then Returned None else Dead.

(** One atomic step of worker [i].  [_execute_next_task] is cut where
    other threads can observe the difference: after [get], after the
    outcome is stored, after [task_done]. *)
Definition worker_step (i : nat) (s : system) : system :=
  match threads s !! i with
  | None => s
  | Some w =>
      match pc w with
      | Fetching =>
          match tasks_get s with
          | (Ok x, s') => goto i (Got x) s'
          | (Raise e, s') => goto i (unwind e) s'
          end
      | Got _CYANIDE => goto i (Returned (Some false)) s
      | Got (Task id func args kwargs) =>
          match _execute_task_record id func args kwargs s with
          | (Ok _, s') => goto i (Marking id) s'
          | (Raise e, s') => goto i (unwind e) s'
          end
      | Marking id =>
          match tasks_task_done id s with
          | (Ok _, s') => goto i (Returned (Some true)) s'
          | (Raise e, s') => goto i (unwind e) s'
          end
      | Returned r =>
          if run_breaks r w s then goto i Dead s else goto i Fetching s
      | Dead => s
      end
  end.

(** ** The monad of the methods that wait on the workers *)

(** A schedule is the list of the bursts of worker steps that fall between
    the calling thread's own actions, in order; when it is used up the
    workers step no more. *)
Definition schedule : Type := list (list nat).

Definition run_batch (b : list nat) (s : system) : system :=
  foldl (λ s' i, worker_step i s') s b.

Inductive outcome (A : Type) :=
| Fin (r : result A) (s : system) (sch : schedule)
| Blocked (s : system).
Arguments Fin {A} r s sch.
Arguments Blocked {A} s.

Definition B (A : Type) : Type := schedule → system → outcome A.

Global Instance B_ret : MRet B := λ A a sch s, Fin (Ok a) s sch.
Global Instance B_bind : MBind B := λ A A' k m sch s,
  match m sch s with
  | Fin (Ok a) s' sch' => k a sch' s'
  | Fin (Raise e) s' sch' => Fin (Raise e) s' sch'
  | Blocked s' => Blocked s'
  end.

Definition atomic {A} (m : M A) : B A :=
  λ sch s, let '(r, s') := m s in Fin r s' sch.

(** The workers take the next burst of steps. *)
Definition yield : B unit :=
  λ sch s, match sch with
           | [] => Fin (Ok tt) s []
           | b :: sch' => Fin (Ok tt) (run_batch b s) sch'
           end.

(** Wait until [cond] holds, the workers stepping meanwhile. *)
Fixpoint await (cond : system → bool) (sch : schedule) (s : system) : outcome unit :=
  if cond s then Fin (Ok tt) s sch
  else match sch with
       | [] => Blocked s
       | b :: sch' => await cond sch' (run_batch b s)
       end.

(** [for x in l: body(x)] *)
Fixpoint for_each {A} (l : list A) (body : A → B unit) : B unit :=
  match l with
  | [] => mret tt
  | x :: l' => body x;; for_each l' body
  end.

(** [drain()]: [self._tasks.join()] *)
Definition drain : B unit := await (λ s, Queue_joinable (_tasks s)).

(** [close], its loop: [while self.is_alive: self._tasks.put(_CYANIDE, ...)] *)
Fixpoint close_loop (sch : schedule) (s : system) : outcome unit :=
  match is_alive s with
  | (Raise e, s1) => Fin (Raise e) s1 sch
  | (Ok false, s1) => Fin (Ok tt) s1 sch
  | (Ok true, s1) =>
      match sch with
      | [] => Blocked s1
      | b1 :: sch1 =>
          match tasks_put _CYANIDE (run_batch b1 s1) with
          | (Raise e, s2) => Fin (Raise e) s2 sch1
          | (Ok _, s2) =>
              match sch1 with
              | [] => Blocked s2
              | b2 :: sch2 => close_loop sch2 (run_batch b2 s2)
              end
          end
      end
  end.

(** [close(raise_exec=False)] *)
Definition close (raise_exec : bool) : B unit :=
  drain;;
  yield;;
  close_loop;;
  yield;;
  atomic (modify (set_workers None)).

(** The names [__init__] binds on the instance, and those of the class. *)
Definition instance_attributes : list string :=
  ["size"; "timeout"; "print_exceptions"; "task_count"; "_returns"; "_exceptions";
   "_id_creator"; "_lock"; "_tasks"; "_run_event"; "_workers"].

Definition class_attributes : list string :=
  ["__init__"; "submit"; "close"; "stop"; "terminate"; "drain"; "is_alive"; "returns";
   "exceptions"; "raise_first"; "_CYANIDE"; "_execute_next_task"; "_execute_task";
   "__enter__"; "__exit__"].

(** [self.<name>]: the attribute, or [AttributeError] *)
Definition self_attribute (name : string) : M string :=
  if bool_decide (name ∈ instance_attributes ++ class_attributes) then mret name
  else raise (AttributeError
    ("'FixedThreadPoolExecutor' object has no attribute '" +:+ name +:+ "'")).

(** [<attribute>.set()]: of all the attributes only the [Event] has it. *)
Definition Event_set (attr : string) : M unit :=
  if bool_decide (attr = "_run_event") then modify (set_run_event true)
  else raise (AttributeError "object has no attribute 'set'").

(** [for worker in self._workers] *)
Definition iter_workers : M (list nat) :=
  ws ← gets _workers;
  match ws with
  | None => raise (TypeError "'NoneType' object is not iterable")
  | Some l => mret l
  end.

(** [worker.join()] *)
Definition Thread_join (i : nat) : B unit :=
  await (λ s, negb (worker_is_alive (threads s) i)).

(** [stop()] *)
Definition stop : B unit :=
  atomic (ev ← self_attribute "run_event"; Event_set ev);;
  yield;;
  ws ← atomic iter_workers;
  for_each ws Thread_join.

(** [terminate()] *)
Definition terminate : B unit :=
  ws ← atomic iter_workers;
  for_each ws (λ i,
    yield;;
    atomic (modify (λ s, set_threads (alter (set_keyboard_interrupted true) i (threads s)) s)));;
  yield;;
  close false.

(** [__exit__(type, value, traceback)]: [self.close()] then [return False] *)
Definition __exit__ (type : option string) (value : option pyexc) (traceback : option string) : B bool :=
  close false;;
  mret false.

(** The [with] statement around a block:
    [with <executor> as x: block(x)].  The result is [Some a] when the
    block ended with [a], [None] when [__exit__] swallowed its error. *)
Definition with_stmt {A} (block : system → B A) : B (option A) := λ sch s,
  match atomic __enter__ sch s with
  | Blocked s1 => Blocked s1
  | Fin (Raise e) s1 sch1 => Fin (Raise e) s1 sch1
  | Fin (Ok x) s1 sch1 =>
      match block x sch1 s1 with
      | Blocked s2 => Blocked s2
      | Fin (Ok a) s2 sch2 =>
          (__exit__ None None None;; mret (Some a)) sch2 s2
      | Fin (Raise e) s2 sch2 =>
          (suppress ← __exit__ (Some (exc_class e)) (Some e) (Some "traceback");
           if (suppress : bool) then mret None else atomic (raise e)) sch2 s2
      end
  end.

(** ** Client code *)

(** What the thread that owns the executor can do with it. *)
Inductive api :=
| c_submit (func : callable) (args : list pyobj) (kwargs : list (string * pyobj))
| c_drain
| c_close
| c_stop
| c_terminate
| c_is_alive
| c_returns
| c_exceptions
| c_raise_first.

(** The call is made; the client goes on whether it returned or raised. *)
Definition attempt {A} (m : B A) : B unit := λ sch s,
  match m sch s with
  | Fin _ s' sch' => Fin (Ok tt) s' sch'
  | Blocked s' => Blocked s'
  end.

Definition run_call (c : api) : B unit :=
  match c with
  | c_submit func args kwargs => attempt (atomic (submit func args kwargs))
  | c_drain => attempt drain
  | c_close => attempt (close false)
  | c_stop => attempt stop
  | c_terminate => attempt terminate
  | c_is_alive => attempt (atomic is_alive)
  | c_returns => attempt (atomic returns)
  | c_exceptions => attempt (atomic exceptions)
  | c_raise_first => attempt (atomic raise_first)
  end.

Fixpoint run_script (cs : list api) : B unit :=
  match cs with
  | [] => yield
  | c :: cs' => yield;; run_call c;; run_script cs'
  end.

(** The states an executor can be found in between two calls. *)
Definition reachable (s : system) : Prop :=
  ∃ size timeout pe cs sch sch',
    run_script cs sch (__init__ size timeout pe) = Fin (Ok tt) s sch'.

(** * The vocabulary of the properties *)

(** ** Views *)

(** [l] lists the values of [d] by ascending key, each key once. *)
Definition ascending_view {V} (d : gmap nat V) (l : list V) : Prop :=
  ∃ ks, StronglySorted lt ks
        ∧ (∀ k, k ∈ ks ↔ is_Some (d !! k))
        ∧ Forall2 (λ k v, d !! k = Some v) ks l.

(** ** The ledger of tasks *)

(** What a worker holds between its [get] and the end of the [try]
    statement of [_execute_task], and the task it is about to mark done. *)
Definition held (w : ThreadedWorker) : list entry :=
  match pc w with Got x => [x] | _ => [] end.

Definition marked (w : ThreadedWorker) : list nat :=
  match pc w with Marking id => [id] | _ => [] end.

Definition in_flight (s : system) : list entry := threads s ≫= held.
Definition marking (s : system) : list nat := threads s ≫= marked.

Definition task_ids (l : list entry) : list nat := omap entry_id l.

(** The entries put and the tasks marked done, read off the history. *)
Definition puts (h : list action) : list entry :=
  omap (λ a, match a with A_put x => Some x | A_task_done _ => None end) h.

Definition dones (h : list action) : list nat :=
  omap (λ a, match a with A_task_done id => Some id | A_put _ => None end) h.

Arguments puts : simpl never.
Arguments dones : simpl never.

(** The sentinels among the entries put on the queue. *)
Definition sentinels (l : list entry) : list entry := filter (λ x, is_sentinel x = true) l.

(** [N] ids handed out, [U] the queue's counter, [Q] the queue, [H] the
    entries held by workers, [K] the tasks being marked done, [D] the tasks
    marked done, [P] everything ever put, [R] and [E] the two maps.
    Every put is counted until a task is marked done; an id is in the
    queue, in a worker's hands, or settled in exactly one map; as long as
    the counter equals what is outstanding, no id has been lost. *)
Record ledger (N U : nat) (Q H : list entry) (K D : list nat) (P : list entry)
    (R : gmap nat pyobj) (E : gmap nat pyexc) : Prop := {
  ledger_put : task_ids P = seq 0 N;
  ledger_counter : U + length D = length P;
  ledger_NoDup : NoDup (task_ids Q ++ task_ids H ++ K ++ D);
  ledger_bound : ∀ id, id ∈ task_ids Q ++ task_ids H ++ K ++ D → id < N;
  ledger_pending : ∀ id, id ∈ task_ids Q ++ task_ids H → R !! id = None ∧ E !! id = None;
  ledger_settled : ∀ id, id ∈ K ++ D → is_Some (R !! id) ∨ is_Some (E !! id);
  ledger_disjoint : ∀ id, is_Some (R !! id) → E !! id = None;
  ledger_keys : ∀ id, is_Some (R !! id) ∨ is_Some (E !! id) → id < N;
  ledger_outstanding : length Q + length H + length K ≤ U;
  ledger_complete :
    length Q + length H + length K = U →
    ∀ id, id < N → id ∈ task_ids Q ++ task_ids H ∨ is_Some (R !! id) ∨ is_Some (E !! id)
}.

(** [_workers] is either gone or lists every thread the executor started. *)
Definition workers_ok (s : system) : Prop :=
  _workers s = None ∨ _workers s = Some (seq 0 (length (threads s))).

(** The invariant of every run. *)
Definition Inv (s : system) : Prop :=
  task_count s = _id_creator s
  ∧ workers_ok s
  ∧ ledger (_id_creator s) (unfinished_tasks (_tasks s)) (items (_tasks s))
           (in_flight s) (marking s) (dones (history s)) (puts (history s))
           (_returns s) (_exceptions s).

(** No thread the executor started is running. *)
Definition all_dead (s : system) : Prop :=
  Forall (λ w, Thread_is_alive w = false) (threads s).

(** The counter if it counted tasks only: the tasks put and not yet
    marked done. *)
Definition counts_tasks_only (s : system) : Prop :=
  unfinished_tasks (_tasks s) + length (dones (history s))
  = length (task_ids (puts (history s))).

(** ** Runs *)

(** The state in which a call left the system, returned or not. *)
Definition outcome_state {A} (o : outcome A) : system :=
  match o with Fin _ s _ => s | Blocked s => s end.

(** [rel] holds between the state before and the state after. *)
Definition M_keeps (rel : system → system → Prop) {A} (m : M A) : Prop :=
  ∀ s, rel s (snd (m s)).

Definition keeps (rel : system → system → Prop) {A} (m : B A) : Prop :=
  ∀ sch s, rel s (outcome_state (m sch s)).

Definition Inv_kept (s s' : system) : Prop := Inv s → Inv s'.

Definition count_kept (s s' : system) : Prop := task_count s' = task_count s.

(** How many calls of a script are calls to [submit]. *)
Fixpoint submissions (cs : list api) : nat :=
  match cs with
  | [] => 0
  | c_submit _ _ _ :: cs' => S (submissions cs')
  | _ :: cs' => submissions cs'
  end.

(** The state [submit] leaves: one more task counted, the next id taken,
    the tuple at the back of the queue. *)
Definition submitted (func : callable) (args : list pyobj) (kwargs : list (string * pyobj))
    (s : system) : system :=
  set_history (history s ++ [A_put (Task (_id_creator s) func args kwargs)])
    (set_tasks (Queue_put (Task (_id_creator s) func args kwargs) (_tasks s))
       (set_id_creator (S (_id_creator s)) (set_task_count (task_count s + 1) s))).

(** Where worker [i] stands once [_execute_next_task] is over: at the test
    of the loop with what the call returned, or dead when it raised. *)
Definition iteration_end (i : nat) (o : result (option bool) * system) : system :=
  match o with
  | (Ok r, s') => goto i (Returned r) s'
  | (Raise _, s') => goto i Dead s'
  end.

(** ** Workers that hold no task *)

(** A worker that holds no task. *)
Definition idle (w : ThreadedWorker) : Prop :=
  match pc w with Got (Task _ _ _ _) | Marking _ => False | _ => True end.

(** Nothing but sentinels on the queue, no task in any worker's hands. *)
Definition calm (s : system) : Prop :=
  Forall (λ x, x = _CYANIDE) (items (_tasks s)) ∧ Forall idle (threads s).

(** How many steps an idle worker is from the end of [run] at most, when
    the queue holds nothing but sentinels. *)
Definition rank (p : wpc) : nat :=
  match p with
  | Dead => 0
  | Returned None | Returned (Some false) => 1
  | Got _CYANIDE => 2
  | Fetching => 3
  | Returned (Some true) => 4
  | Got (Task _ _ _ _) | Marking _ => 5
  end.

Definition pc_at (s : system) (i : nat) : wpc :=
  match threads s !! i with Some w => pc w | None => Dead end.

(** Every worker in turn takes four steps. *)
Definition round_robin (n : nat) : list nat := seq 0 n ≫= λ i, [i; i; i; i].

(** ** Two concrete runs *)

(** Three tasks on two workers; the second task fails.  Under [sched3]
    the first task is the last to complete, under [sched3_in_order] the
    tasks complete in the order of their submission. *)
Definition ok7 : callable := λ _ _, Ok (PyInt 7).
Definition boom : callable := λ _ _, Raise (Exc "ValueError" "boom").

Definition batch3 : list api :=
  [c_submit ok7 [] []; c_submit boom [] []; c_submit ok7 [] []].

Definition sched3 : schedule := [[]; []; []; []; [0; 1; 1; 1; 1; 1; 1; 1; 0; 0]].

Definition submitted3 : system :=
  outcome_state (run_script batch3 sched3 (__init__ 2 100 false)).

Definition drained3 : system :=
  outcome_state (drain [[0; 1; 1; 1; 1; 1; 1; 1; 0; 0]] submitted3).

Definition sched3_in_order : list nat := [0; 0; 0; 0; 1; 1; 1; 1; 0; 0; 0].

Definition drained3_in_order : system :=
  outcome_state (drain [sched3_in_order] submitted3).

(** A pool of one worker is closed before any task was submitted: [drain]
    returns at once, [close] finds the worker alive and puts one sentinel,
    the worker takes it and ends, [close] finds no worker alive. *)
Definition sched_close1 : schedule := [[]; []; [0; 0; 0]].

Definition closed1 : system :=
  outcome_state (close false sched_close1 (__init__ 1 100 false)).

(** A block that submits a failing task and then fails itself. *)
Definition failing_block : system → B unit := λ _,
  atomic (submit boom [] []);;
  atomic (raise (Exc "RuntimeError" "in scope")).

Definition sched_scope : schedule := [[0; 0; 0; 0]; []; []; [0; 0; 0]].

(** ** More vocabulary: what stays, what never happens *)

(** The field [f] has the same value before and after. *)
Definition same {A} (f : system → A) (s s' : system) : Prop := f s' = f s.

(** The interrupt flags of the threads, by position. *)
Definition flags (s : system) : list bool := keyboard_interrupted <$> threads s.

(** A flag that is set stays set. *)
Definition flags_stay (s s' : system) : Prop :=
  length (flags s') = length (flags s)
  ∧ ∀ i, flags s !! i = Some true → flags s' !! i = Some true.

(** The task [id] has its outcome in one of the maps. *)
Definition settled (s : system) (id : nat) : Prop :=
  is_Some (_returns s !! id) ∨ is_Some (_exceptions s !! id).

(** No id is handed out and no outcome is taken back. *)
Definition settled_kept (s s' : system) : Prop :=
  _id_creator s' = _id_creator s ∧ ∀ id, settled s id → settled s' id.

(** What is outstanding for the queue's counter: the entries queued, the
    entries in workers' hands and the tasks about to be marked done. *)
Definition outstanding (s : system) : nat :=
  length (items (_tasks s)) + length (in_flight s) + length (marking s).

(** The counter is above what is outstanding: some entry left a worker's
    hands without [task_done()]. *)
Definition stuck (s : system) : Prop := outstanding s < unfinished_tasks (_tasks s).

(** ** More concrete runs *)

(** A task that is interrupted from the keyboard, taken by the one worker
    of a pool. *)
Definition interrupted : callable := λ _ _, Raise (Exc "KeyboardInterrupt" EmptyString).

Definition taken_interrupted : system :=
  run_batch [0] (snd (submit interrupted [] [] (__init__ 1 100 false))).


(** ** More vocabulary: order and origin of the tasks *)

(** The queue holds the ids of the [k] tasks submitted last, oldest
    first. *)
Definition fifo (s : system) : Prop :=
  ∃ k, k ≤ _id_creator s ∧ task_ids (items (_tasks s)) = seq (_id_creator s - k) k.

Definition fifo_kept (s s' : system) : Prop := fifo s → fifo s'.



(** A failing task run with [print_exceptions] set. *)
Definition sched_printed : schedule := [[]; []; [0; 0; 0]].

Definition printed1 : system :=
  outcome_state (run_script [c_submit boom [] []; c_drain] sched_printed (__init__ 1 100 true)).

(** Two tasks, then [close()]; one task, then [terminate()]. *)
Definition submitted2 : system :=
  outcome_state (run_script [c_submit ok7 [] []; c_submit boom [] []] [] (__init__ 1 100 false)).

Definition sched_close2 : schedule := [[0; 0; 0; 0; 0; 0; 0; 0]; []; []; [0; 0; 0]].

Definition closed2 : system := outcome_state (close false sched_close2 submitted2).

Definition submitted1 : system :=
  outcome_state (run_script [c_submit ok7 [] []] [] (__init__ 1 100 false)).

Definition sched_terminate1 : schedule := [[]; []; [0; 0; 0; 0]].

Definition terminated1 : system := outcome_state (terminate sched_terminate1 submitted1).

(** ** More vocabulary: where the outcomes come from *)

(** What the callable of a queue entry gives when it is called with the
    arguments captured at [submit]. *)
Definition outcome_of (x : entry) : option (result pyobj) :=
  match x with
  | Task _ func args kwargs => Some (func args kwargs)
  | _CYANIDE => None
  end.

Definition value_of (r : result pyobj) : option pyobj :=
  match r with Ok v => Some v | Raise _ => None end.

Definition error_of (r : result pyobj) : option pyexc :=
  match r with Ok _ => None | Raise e => Some e end.

(** What the tasks put so far give, in the order they were put. *)
Definition put_outcomes (s : system) : list (result pyobj) :=
  omap outcome_of (puts (history s)).

(** What the callables that a script submits give, in the order of the
    calls to [submit]. *)
Definition submitted_outcomes (cs : list api) : list (result pyobj) :=
  omap (λ c, match c with
             | c_submit func args kwargs => Some (func args kwargs)
             | _ => None
             end) cs.

(** What is stored under an id is what the task put under that id gives,
    an error stored is an [Exception], and a task queued or held is the
    task that was put under its id. *)
Definition origin (s : system) : Prop :=
  (∀ id v, _returns s !! id = Some v → put_outcomes s !! id = Some (Ok v))
  ∧ (∀ id e, _exceptions s !! id = Some e →
       put_outcomes s !! id = Some (Raise e) ∧ is_Exception e = true)
  ∧ (∀ id func args kwargs,
       Task id func args kwargs ∈ items (_tasks s) ++ in_flight s →
       put_outcomes s !! id = Some (func args kwargs)).

Definition origin_kept (s s' : system) : Prop := Inv s ∧ origin s → Inv s' ∧ origin s'.

(** The script [batch3] followed by [drain()]. *)
Definition batch3_drain : list api := batch3 ++ [c_drain].

(** ** The path name helpers *)

(** [GetShortPathNameW] and [GetLongPathNameW] as their caller sees them:
    for a path and the size of the buffer passed, the [DWORD] the call
    returns and what [output_buf.value] reads afterwards. *)
Definition win32_call : Type := string → nat → nat * string.

(** The loop of both helpers, started with the buffer size
    [output_buf_size]:
    [output_buf = create_unicode_buffer(output_buf_size)],
    [needed = call(name, output_buf, output_buf_size)], then
    [return output_buf.value] if [output_buf_size >= needed], else
    [output_buf_size = needed] and once more.  [while True] has no bound;
    [fuel] is the number of rounds looked at.  The result comes with the
    buffer sizes passed to the call, oldest first. *)
Fixpoint path_name_loop (call : win32_call) (name : string) (fuel output_buf_size : nat)
    (sizes : list nat) : option (string * list nat) :=
  match fuel with
  | 0 => None
  | S fuel' =>
      let '(needed, value) := call name output_buf_size in
      if bool_decide (needed ≤ output_buf_size)
      then Some (value, sizes ++ [output_buf_size])
      else path_name_loop call name fuel' needed (sizes ++ [output_buf_size])
  end.

(** [get_short_path_name(long_name)] *)
Definition get_short_path_name (_GetShortPathNameW : win32_call) (fuel : nat)
    (long_name : string) : option (string * list nat) :=
  path_name_loop _GetShortPathNameW long_name fuel 0 [].

(** [get_long_path_name(short_path)] *)
Definition get_long_path_name (_GetLongPathNameW : win32_call) (fuel : nat)
    (short_path : string) : option (string * list nat) :=
  path_name_loop _GetLongPathNameW short_path fuel 0 [].

(** Each size passed after the first is what the call before answered,
    and that answer did not fit the buffer it was given. *)
Fixpoint grown (call : win32_call) (name : string) (sizes : list nat) : Prop :=
  match sizes with
  | k1 :: ((k2 :: _) as rest) =>
      k1 < k2 ∧ fst (call name k1) = k2 ∧ grown call name rest
  | _ => True
  end.

(** A call that behaves as the Win32 documentation says, for a path whose
    short form is [PROGRA~1]: too small a buffer is answered with the size
    needed, the terminating null included; a buffer that fits is filled
    and answered with the length written. *)
Definition short_of_program_files : win32_call := λ _ size,
  if bool_decide (size < 9) then (9, EmptyString) else (8, "PROGRA~1").


(** ** More vocabulary: workers that were told to stop *)

(** Every worker has its interrupt flag set. *)
Definition all_interrupted (s : system) : Prop :=
  Forall (λ w, keyboard_interrupted w = true) (threads s).

(** How many tasks a worker whose interrupt flag is set can still mark
    done: the one it holds or is about to fetch, and none once its call of
    [_execute_next_task] has returned. *)
Definition budget (w : ThreadedWorker) : nat :=
  match pc w with
  | Fetching | Got (Task _ _ _ _) | Marking _ => 1
  | _ => 0
  end.

Definition budgets (s : system) : nat := sum_list_with budget (threads s).

(** More tasks are unfinished than the interrupted workers can still
    mark done. *)
Definition abandoned (s : system) : Prop :=
  all_interrupted s ∧ budgets s < unfinished_tasks (_tasks s).

(** Two tasks are queued for the one worker of a pool when [terminate()]
    is called; the worker takes no step until its flag is set. *)
Definition sched_terminate2 : schedule := [[]].

Definition terminating2 : system := outcome_state (terminate sched_terminate2 submitted2).

(** * Properties *)

Ltac unfold_M :=
  unfold mbind, M_bind, mret, M_ret, gets, modify, raise, try_except, when in *.

(** ** The result views *)

Section views.
Context {V : Type}.
Implicit Types (d : gmap nat V) (ks : list nat).

Lemma comprehension_getitem d ks s :
  (∀ k, k ∈ ks → is_Some (d !! k)) →
  ∃ vs, comprehension (dict_getitem d) ks s = (Ok vs, s)
        ∧ Forall2 (λ k v, d !! k = Some v) ks vs.
Proof.
  induction ks as [|k ks IH]; intros Hks.
  - exists []. split; [reflexivity | constructor].
  - destruct (Hks k) as [v Hv]; [left|].
    destruct IH as (vs & Hvs & Hall).
    { intros k' Hk'. apply Hks. by right. }
    exists (v :: vs). split; [|by constructor].
    assert (dict_getitem d k s = (Ok v, s)) as Hget.
    { unfold dict_getitem. by rewrite Hv. }
    cbn [comprehension]. unfold mbind, M_bind. by rewrite Hget, Hvs.
Qed.

Lemma sorted_elem_of d k : k ∈ sorted d ↔ is_Some (d !! k).
Proof.
  unfold sorted. rewrite merge_sort_Permutation, elem_of_elements.
  apply elem_of_dom.
Qed.

Lemma sorted_NoDup d : NoDup (sorted d).
Proof.
  unfold sorted. rewrite merge_sort_Permutation. apply NoDup_elements.
Qed.

Lemma le_sorted_NoDup_lt ks :
  StronglySorted le ks → NoDup ks → StronglySorted lt ks.
Proof.
  induction 1 as [|k ks Hs IH Hk]; intros Hnd; [constructor|].
  apply NoDup_cons in Hnd as [Hnotin Hnd].
  constructor; [by apply IH|].
  rewrite Forall_forall in Hk |- *. intros j Hj.
  specialize (Hk j Hj). assert (k ≠ j) by (intros ->; done). lia.
Qed.

Lemma sorted_ascending d : StronglySorted lt (sorted d).
Proof.
  apply le_sorted_NoDup_lt; [|apply sorted_NoDup].
  unfold sorted. apply StronglySorted_merge_sort; apply _.
Qed.

Lemma view_of_sorted d s :
  ∃ vs, comprehension (dict_getitem d) (sorted d) s = (Ok vs, s)
        ∧ ascending_view d vs.
Proof.
  destruct (comprehension_getitem d (sorted d) s) as (vs & Hrun & Hall).
  { intros k. by rewrite sorted_elem_of. }
  exists vs. split; [done|].
  exists (sorted d). split_and!; [apply sorted_ascending | apply sorted_elem_of | done].
Qed.

Lemma ascending_keys_unique ks1 ks2 :
  StronglySorted lt ks1 → StronglySorted lt ks2 →
  (∀ k, k ∈ ks1 ↔ k ∈ ks2) → ks1 = ks2.
Proof.
  intros H1 H2 Hiff.
  apply (StronglySorted_unique_strong lt); [|done|done|].
  - intros x1 x2 _ _ Hlt Hgt. lia.
  - apply NoDup_Permutation; [| |done].
    + clear -H1. induction H1 as [|k ks _ IH Hk]; constructor; [|done].
      rewrite Forall_forall in Hk. intros Hin. specialize (Hk _ Hin). lia.
    + clear -H2. induction H2 as [|k ks _ IH Hk]; constructor; [|done].
      rewrite Forall_forall in Hk. intros Hin. specialize (Hk _ Hin). lia.
Qed.

(** The map alone fixes the view: whichever way its entries came in. *)
Lemma ascending_view_unique d l1 l2 :
  ascending_view d l1 → ascending_view d l2 → l1 = l2.
Proof.
  intros (ks1 & Hs1 & Hk1 & Hl1) (ks2 & Hs2 & Hk2 & Hl2).
  assert (ks1 = ks2) as ->.
  { apply ascending_keys_unique; [done..|]. intros k. by rewrite Hk1, Hk2. }
  clear -Hl1 Hl2. revert l2 Hl2.
  induction Hl1 as [|k v ks l Hv _ IH]; intros l2 Hl2; inversion Hl2; subst; [done|].
  f_equal; [congruence | by apply IH].
Qed.

Lemma ascending_view_length d l : ascending_view d l → length l = size d.
Proof.
  intros (ks & Hs & Hk & Hl).
  rewrite <- (Forall2_length _ _ _ Hl), <- size_dom.
  assert (ks = sorted d) as ->.
  { apply ascending_keys_unique; [done | apply sorted_ascending |].
    intros k. by rewrite Hk, sorted_elem_of. }
  unfold sorted. by rewrite merge_sort_Permutation.
Qed.

Lemma ascending_view_head d e l :
  ascending_view d (e :: l) →
  ∃ k, d !! k = Some e ∧ ∀ j, is_Some (d !! j) → k ≤ j.
Proof.
  intros (ks & Hs & Hk & Hl). inversion Hl as [|k ? ks' ? Hke Hrest]; subst.
  exists k. split; [done|]. intros j Hj. apply Hk in Hj.
  apply StronglySorted_cons in Hs as [Hall _]. rewrite Forall_forall in Hall.
  apply elem_of_cons in Hj as [->|Hj]; [lia|]. specialize (Hall _ Hj). lia.
Qed.

Lemma ascending_view_nil d : ascending_view d [] → d = ∅.
Proof.
  intros (ks & Hs & Hk & Hl). inversion Hl; subst.
  apply map_empty. intros k. apply eq_None_not_Some. rewrite <- Hk.
  apply not_elem_of_nil.
Qed.
End views.

Lemma returns_spec s :
  ∃ vs, returns s = (Ok vs, s) ∧ ascending_view (_returns s) vs.
Proof. unfold returns. unfold_M. apply view_of_sorted. Qed.

Lemma exceptions_spec s :
  ∃ es, exceptions s = (Ok es, s) ∧ ascending_view (_exceptions s) es.
Proof. unfold exceptions. unfold_M. apply view_of_sorted. Qed.

(** C4. For every state of the two maps, [returns] and [exceptions] each
    yield the stored values ordered by ascending task id, every stored id
    once; the sequence is the only one with that property, so it does not
    depend on the order in which the workers stored the values. *)
Theorem C4_views_sorted_by_task_id (s : system) :
  ∃ vs es,
    fst (returns s) = Ok vs
    ∧ ascending_view (_returns s) vs
    ∧ (∀ l, ascending_view (_returns s) l → l = vs)
    ∧ fst (exceptions s) = Ok es
    ∧ ascending_view (_exceptions s) es
    ∧ (∀ l, ascending_view (_exceptions s) l → l = es).
Proof.
  destruct (returns_spec s) as (vs & Hr & Hvs).
  destruct (exceptions_spec s) as (es & He & Hes).
  exists vs, es. rewrite Hr, He. split_and!; try done.
  - intros l Hl. by apply (ascending_view_unique (_returns s)).
  - intros l Hl. by apply (ascending_view_unique (_exceptions s)).
Qed.

Lemma raise_first_spec s :
  match fst (raise_first s) with
  | Ok _ => _exceptions s = ∅
  | Raise e => ∃ k, _exceptions s !! k = Some e
                    ∧ ∀ j, is_Some (_exceptions s !! j) → k ≤ j
  end.
Proof.
  unfold raise_first. unfold_M.
  destruct (exceptions_spec s) as (es & -> & Hes).
  destruct es as [|e es]; simpl.
  - by apply ascending_view_nil.
  - by apply (ascending_view_head _ e es).
Qed.

(** C5. [raise_first()] raises the stored error of the failed task with
    the lowest id when some task has failed, and returns normally when
    none has. *)
Theorem C5_raise_first_lowest_failed_id (s : system) :
  (_exceptions s = ∅ ∧ fst (raise_first s) = Ok tt)
  ∨ (∃ k e, _exceptions s !! k = Some e
            ∧ (∀ j, is_Some (_exceptions s !! j) → k ≤ j)
            ∧ fst (raise_first s) = Raise e).
Proof.
  pose proof (raise_first_spec s) as H.
  destruct (fst (raise_first s)) as [[]|e] eqn:Hr.
  - left. done.
  - right. destruct H as (k & Hk & Hmin). by exists k, e.
Qed.

Lemma returns_frame s : snd (returns s) = s.
Proof. destruct (returns_spec s) as (vs & Hr & _). by rewrite Hr. Qed.

Lemma exceptions_frame s : snd (exceptions s) = s.
Proof. destruct (exceptions_spec s) as (es & He & _). by rewrite He. Qed.

Lemma raise_first_frame s : snd (raise_first s) = s.
Proof.
  destruct (exceptions_spec s) as (es & He & _).
  unfold raise_first. unfold_M. rewrite He. by destruct es.
Qed.

(** C10. Reading [returns], reading [exceptions] and calling
    [raise_first()] leave every field of the executor as it was (the two
    maps, the task counter, the id generator, the queue, the worker set and
    the rest of the state), also when [raise_first()] raises. *)
Theorem C10_views_do_not_mutate (s : system) :
  snd (returns s) = s ∧ snd (exceptions s) = s ∧ snd (raise_first s) = s.
Proof.
  split_and!; [apply returns_frame | apply exceptions_frame | apply raise_first_frame].
Qed.

(** ** [stop()] *)

Lemma self_run_event_missing s :
  self_attribute "run_event" s
  = (Raise (AttributeError "'FixedThreadPoolExecutor' object has no attribute 'run_event'"), s).
Proof. reflexivity. Qed.

(** C2 (as the code behaves). [stop()] reads [self.run_event], a name that
    neither [__init__] nor the class binds (the event is [_run_event]): on
    every executor the call raises [AttributeError] before the event is set
    and before any worker is joined, and leaves the state as it was. *)
Theorem C2_stop_raises_AttributeError (size timeout : nat) (pe : bool) (sch : schedule) :
  stop sch (__init__ size timeout pe)
  = Fin (Raise (AttributeError "'FixedThreadPoolExecutor' object has no attribute 'run_event'"))
        (__init__ size timeout pe) sch
  ∧ _run_event (__init__ size timeout pe) = false.
Proof. split; reflexivity. Qed.

Lemma stop_always_raises sch s :
  stop sch s
  = Fin (Raise (AttributeError "'FixedThreadPoolExecutor' object has no attribute 'run_event'")) s sch.
Proof. reflexivity. Qed.

(** ** The ledger of tasks: an invariant of every run *)

Global Instance ledger_Permutation N U Q :
  Proper ((≡ₚ) ==> (≡ₚ) ==> eq ==> eq ==> eq ==> eq ==> iff) (ledger N U Q).
Proof.
  assert (∀ H H' K K' D P R E, H ≡ₚ H' → K ≡ₚ K' →
            ledger N U Q H K D P R E → ledger N U Q H' K' D P R E) as Himp.
  { intros H H' K K' D P R E HH HK [].
    assert (task_ids H ≡ₚ task_ids H') as HT by (unfold task_ids; by rewrite HH).
    assert (length H = length H') as HlH by (by rewrite HH).
    assert (length K = length K') as HlK by (by rewrite HK).
    split; try done.
    - by rewrite <- HT, <- HK.
    - intros id. rewrite <- HT, <- HK. auto.
    - intros id. rewrite <- HT. auto.
    - intros id. rewrite <- HK. auto.
    - lia.
    - intros Hlen id Hid. rewrite <- HT. apply ledger_complete0; [lia|done]. }
  intros H H' HH K K' HK D ? <- P ? <- R ? <- E ? <-.
  split; apply Himp; done.
Qed.

Section ledger.
Context {N U : nat} {Q H : list entry} {K D : list nat} {P : list entry}
        {R : gmap nat pyobj} {E : gmap nat pyexc}.

Lemma task_ids_app l1 l2 : task_ids (l1 ++ l2) = task_ids l1 ++ task_ids l2.
Proof. apply omap_app. Qed.

Lemma task_ids_length l : length (task_ids l) ≤ length l.
Proof. induction l as [|[] l IH]; simpl; lia. Qed.

Lemma ledger_init : ledger 0 0 [] [] [] [] [] ∅ ∅.
Proof.
  split; simpl; try done.
  all: try (intros id Hid; by apply elem_of_nil in Hid).
  - apply NoDup_nil_2.
  - intros id [[? Hid]|[? Hid]]; by rewrite lookup_empty in Hid.
  - intros _ id Hid. lia.
Qed.

(** [submit]: the next id goes on the queue. *)
Lemma ledger_submit func args kwargs :
  ledger N U Q H K D P R E →
  ledger (S N) (S U) (Q ++ [Task N func args kwargs]) H K D
         (P ++ [Task N func args kwargs]) R E.
Proof.
  intros [].
  assert (∀ id, id ∈ (task_ids Q ++ [N]) ++ task_ids H ++ K ++ D
                ↔ id = N ∨ id ∈ task_ids Q ++ task_ids H ++ K ++ D) as Hmem.
  { intros id. rewrite !elem_of_app, list_elem_of_singleton. tauto. }
  assert (R !! N = None ∧ E !! N = None) as [HRN HEN].
  { split; apply eq_None_not_Some; intros Hs.
    - specialize (ledger_keys0 N (or_introl Hs)). lia.
    - specialize (ledger_keys0 N (or_intror Hs)). lia. }
  assert ((task_ids Q ++ [N]) ++ task_ids H ++ K ++ D
          ≡ₚ N :: task_ids Q ++ task_ids H ++ K ++ D) as Hperm.
  { rewrite <- (assoc_L (++)). simpl. by rewrite <- Permutation_middle. }
  split; rewrite ?task_ids_app, ?length_app;
    change (task_ids [Task N func args kwargs]) with [N];
    change (length [Task N func args kwargs]) with 1.
  - by rewrite seq_S, ledger_put0.
  - lia.
  - rewrite Hperm. apply NoDup_cons. split; [|done].
    intros Hin. specialize (ledger_bound0 N Hin). lia.
  - intros id Hid. apply Hmem in Hid as [->|Hid]; [lia|].
    specialize (ledger_bound0 id Hid). lia.
  - intros id Hid. rewrite !elem_of_app, list_elem_of_singleton in Hid.
    destruct Hid as [[Hid| ->]|Hid]; [|done|];
      apply ledger_pending0; rewrite elem_of_app; tauto.
  - done.
  - done.
  - intros id Hid. specialize (ledger_keys0 id Hid). lia.
  - lia.
  - intros Hlen id Hid.
    destruct (decide (id = N)) as [->|Hne].
    + left. apply elem_of_app. left. apply elem_of_app. right. by left.
    + destruct (ledger_complete0 ltac:(lia) id ltac:(lia)) as [Hin|Hrec]; [|by right].
      left. apply elem_of_app in Hin as [Hin|Hin]; apply elem_of_app;
        [left; apply elem_of_app; by left | by right].
Qed.

(** [close]: one more sentinel goes on the queue. *)
Lemma ledger_poison :
  ledger N U Q H K D P R E →
  ledger N (S U) (Q ++ [_CYANIDE]) H K D (P ++ [_CYANIDE]) R E.
Proof.
  intros [].
  split; rewrite ?task_ids_app, ?length_app; simpl; rewrite ?app_nil_r;
    try done; try lia.
  intros Hlen. apply ledger_complete0. lia.
Qed.
End ledger.

(** Entries change hands without any being lost. *)
Lemma ledger_rearrange N U Q H K Q' H' K' D P R E :
  ledger N U Q H K D P R E →
  task_ids Q' ++ task_ids H' ≡ₚ task_ids Q ++ task_ids H →
  K' ≡ₚ K →
  length Q' + length H' + length K' = length Q + length H + length K →
  ledger N U Q' H' K' D P R E.
Proof.
  intros [] Hpend HK Hlen.
  assert (task_ids Q' ++ task_ids H' ++ K' ++ D ≡ₚ task_ids Q ++ task_ids H ++ K ++ D) as Hall.
  { rewrite !(assoc_L (++) (task_ids _) (task_ids _)). by rewrite Hpend, HK. }
  split; try done.
  - by rewrite Hall.
  - intros id. rewrite Hall. auto.
  - intros id. rewrite Hpend. auto.
  - intros id. rewrite HK. auto.
  - lia.
  - intros Hlen' id Hid. rewrite Hpend. apply ledger_complete0; [lia|done].
Qed.

(** An entry leaves a worker's hands without being marked done: the
    sentinel a worker swallowed, the task whose error escaped the [try]
    statement.  The counter stays above what is outstanding from then on. *)
Lemma ledger_drop N U Q x H K D P R E :
  ledger N U Q (x :: H) K D P R E →
  ledger N U Q H K D P R E.
Proof.
  intros [].
  assert (task_ids Q ++ task_ids H ++ K ++ D
          `sublist_of` task_ids Q ++ task_ids (x :: H) ++ K ++ D) as Hsub.
  { apply sublist_app; [done|]. apply sublist_app; [|done].
    destruct x; simpl; [by apply sublist_cons | done]. }
  assert (∀ id, id ∈ task_ids Q ++ task_ids H → id ∈ task_ids Q ++ task_ids (x :: H)) as Hpend.
  { intros id. rewrite !elem_of_app. intros [?|?]; [by left|right].
    destruct x; simpl; [by right | done]. }
  cbn [length] in *.
  split; try done.
  - by eapply sublist_NoDup.
  - intros id Hid. apply ledger_bound0. by eapply elem_of_sublist.
  - intros id Hid. by apply ledger_pending0, Hpend.
  - lia.
  - lia.
Qed.

(** The outcome of a held task is stored: a value in [R]... *)
Lemma ledger_store_result N U Q id func args kwargs H K D P R E v :
  ledger N U Q (Task id func args kwargs :: H) K D P R E →
  ledger N U Q H (id :: K) D P (<[id := v]> R) E.
Proof.
  intros [].
  assert (task_ids Q ++ task_ids H ++ (id :: K) ++ D
          ≡ₚ task_ids Q ++ task_ids (Task id func args kwargs :: H) ++ K ++ D) as Hall.
  { simpl. by rewrite <- !Permutation_middle. }
  assert (id ∉ task_ids Q ++ task_ids H) as Hfresh.
  { simpl in ledger_NoDup0. rewrite <- Permutation_middle in ledger_NoDup0.
    apply NoDup_cons in ledger_NoDup0 as [Hnotin _].
    intros Hin. apply Hnotin. rewrite (assoc_L (++)). apply elem_of_app. by left. }
  assert (R !! id = None ∧ E !! id = None) as [HR HE].
  { apply ledger_pending0. simpl. apply elem_of_app. right. by left. }
  assert (id < N) as Hid.
  { apply ledger_bound0. simpl. apply elem_of_app. right. by left. }
  split; try done.
  - by rewrite Hall.
  - intros id'. rewrite Hall. auto.
  - intros id' Hin. assert (id' ≠ id) by (by intros ->).
    rewrite lookup_insert_ne by done. apply ledger_pending0.
    simpl. apply elem_of_app in Hin as [?|?]; apply elem_of_app; [by left | right; by right].
  - intros id' Hin. destruct (decide (id' = id)) as [->|Hne].
    + left. rewrite lookup_insert_eq. by eexists.
    + rewrite lookup_insert_ne by done. apply ledger_settled0.
      simpl in Hin. by apply elem_of_cons in Hin as [?|?].
  - intros id' Hin. destruct (decide (id' = id)) as [->|Hne]; [done|].
    rewrite lookup_insert_ne in Hin by done. by apply ledger_disjoint0.
  - intros id' Hin. destruct (decide (id' = id)) as [->|Hne]; [done|].
    rewrite lookup_insert_ne in Hin by done. by apply ledger_keys0.
  - simpl in *. lia.
  - intros Hlen id' Hid'. destruct (decide (id' = id)) as [->|Hne].
    + right. left. rewrite lookup_insert_eq. by eexists.
    + rewrite lookup_insert_ne by done.
      destruct (ledger_complete0 ltac:(simpl in *; lia) id' Hid') as [Hin|Hrec]; [|by right].
      left. simpl in Hin. apply elem_of_app in Hin as [?|Hin]; apply elem_of_app; [by left|].
      right. by apply elem_of_cons in Hin as [?|?].
Qed.

(** ... or the [Exception] it raised in [E]. *)
Lemma ledger_store_error N U Q id func args kwargs H K D P R E e :
  ledger N U Q (Task id func args kwargs :: H) K D P R E →
  ledger N U Q H (id :: K) D P R (<[id := e]> E).
Proof.
  intros [].
  assert (task_ids Q ++ task_ids H ++ (id :: K) ++ D
          ≡ₚ task_ids Q ++ task_ids (Task id func args kwargs :: H) ++ K ++ D) as Hall.
  { simpl. by rewrite <- !Permutation_middle. }
  assert (id ∉ task_ids Q ++ task_ids H) as Hfresh.
  { simpl in ledger_NoDup0. rewrite <- Permutation_middle in ledger_NoDup0.
    apply NoDup_cons in ledger_NoDup0 as [Hnotin _].
    intros Hin. apply Hnotin. rewrite (assoc_L (++)). apply elem_of_app. by left. }
  assert (R !! id = None ∧ E !! id = None) as [HR HE].
  { apply ledger_pending0. simpl. apply elem_of_app. right. by left. }
  assert (id < N) as Hid.
  { apply ledger_bound0. simpl. apply elem_of_app. right. by left. }
  split; try done.
  - by rewrite Hall.
  - intros id'. rewrite Hall. auto.
  - intros id' Hin. assert (id' ≠ id) by (by intros ->).
    rewrite lookup_insert_ne by done. apply ledger_pending0.
    simpl. apply elem_of_app in Hin as [?|?]; apply elem_of_app; [by left | right; by right].
  - intros id' Hin. destruct (decide (id' = id)) as [->|Hne].
    + right. rewrite lookup_insert_eq. by eexists.
    + rewrite lookup_insert_ne by done. apply ledger_settled0.
      simpl in Hin. by apply elem_of_cons in Hin as [?|?].
  - intros id' Hin. destruct (decide (id' = id)) as [->|Hne].
    + rewrite HR in Hin. by destruct Hin.
    + rewrite lookup_insert_ne by done. by apply ledger_disjoint0.
  - intros id' Hin. destruct (decide (id' = id)) as [->|Hne]; [done|].
    rewrite lookup_insert_ne in Hin by done. by apply ledger_keys0.
  - simpl in *. lia.
  - intros Hlen id' Hid'. destruct (decide (id' = id)) as [->|Hne].
    + right. right. rewrite lookup_insert_eq. by eexists.
    + rewrite lookup_insert_ne by done.
      destruct (ledger_complete0 ltac:(simpl in *; lia) id' Hid') as [Hin|Hrec]; [|by right].
      left. simpl in Hin. apply elem_of_app in Hin as [?|Hin]; apply elem_of_app; [by left|].
      right. by apply elem_of_cons in Hin as [?|?].
Qed.

(** [task_done()] for a task whose outcome is stored: the counter was
    positive, and goes down by one. *)
Lemma ledger_task_done N U Q H id K D P R E :
  ledger N U Q H (id :: K) D P R E →
  ∃ U', U = S U' ∧ ledger N U' Q H K (D ++ [id]) P R E.
Proof.
  intros [].
  destruct U as [|U']; [simpl in *; lia|].
  exists U'. split; [done|].
  assert (task_ids Q ++ task_ids H ++ K ++ D ++ [id]
          ≡ₚ task_ids Q ++ task_ids H ++ (id :: K) ++ D) as Hall.
  { rewrite (comm (++) D [id]). simpl. by rewrite <- !Permutation_middle. }
  split; try done.
  - rewrite length_app. simpl. lia.
  - by rewrite Hall.
  - intros id'. rewrite Hall. auto.
  - intros id' Hin. apply ledger_settled0.
    rewrite (assoc_L (++)) in Hin. apply elem_of_app in Hin as [Hin|Hin].
    + simpl. apply elem_of_app in Hin as [?|?]; [right; apply elem_of_app; by left |].
      right. apply elem_of_app. by right.
    + apply list_elem_of_singleton in Hin as ->. by left.
  - simpl in *. lia.
  - intros Hlen. apply ledger_complete0. simpl in *. lia.
Qed.

Lemma ledger_perm N U Q H H' K K' D P R E :
  H ≡ₚ H' → K ≡ₚ K' →
  ledger N U Q H K D P R E → ledger N U Q H' K' D P R E.
Proof. intros HH HK. by rewrite HH, HK. Qed.

Lemma alter_split {A} (f : A → A) (ts : list A) i w :
  ts !! i = Some w →
  ∃ l1 l2, ts = l1 ++ w :: l2 ∧ alter f i ts = l1 ++ f w :: l2.
Proof.
  intros Hw. apply list_elem_of_split_length in Hw as (l1 & l2 & -> & ->).
  exists l1, l2. split; [done|].
  replace (length l1) with (length l1 + 0) by lia.
  by rewrite alter_app_r.
Qed.

Lemma goto_ledger i w p s s' :
  threads s !! i = Some w → threads s' = threads s →
  ∃ hs ms,
    in_flight s ≡ₚ held w ++ hs ∧ marking s ≡ₚ marked w ++ ms
    ∧ in_flight (goto i p s') ≡ₚ held (set_pc p w) ++ hs
    ∧ marking (goto i p s') ≡ₚ marked (set_pc p w) ++ ms
    ∧ length (threads (goto i p s')) = length (threads s).
Proof.
  intros Hw Hts.
  destruct (alter_split (set_pc p) _ _ _ Hw) as (l1 & l2 & Hsplit & Halter).
  exists ((l1 ++ l2) ≫= held), ((l1 ++ l2) ≫= marked).
  unfold in_flight, marking, goto. cbn [threads set_threads].
  rewrite Hts, Halter, Hsplit, !bind_app, !bind_cons, !length_app. cbn [length].
  split_and!; try done; by rewrite Permutation_app_swap_app.
Qed.

Lemma goto_fields i p s :
  task_count (goto i p s) = task_count s
  ∧ _id_creator (goto i p s) = _id_creator s
  ∧ _workers (goto i p s) = _workers s
  ∧ _tasks (goto i p s) = _tasks s
  ∧ history (goto i p s) = history s
  ∧ _returns (goto i p s) = _returns s
  ∧ _exceptions (goto i p s) = _exceptions s.
Proof. done. Qed.

Lemma unwind_cases e : unwind e = Returned None ∨ unwind e = Dead.
Proof. unfold unwind. destruct (is_Empty e); auto. Qed.

Lemma Inv_goto i w p s s' :
  threads s !! i = Some w →
  threads s' = threads s →
  task_count s' = _id_creator s' →
  _workers s' = _workers s →
  (∀ hs ms,
     ledger (_id_creator s) (unfinished_tasks (_tasks s)) (items (_tasks s))
            (held w ++ hs) (marked w ++ ms) (dones (history s)) (puts (history s))
            (_returns s) (_exceptions s) →
     ledger (_id_creator s') (unfinished_tasks (_tasks s')) (items (_tasks s'))
            (held (set_pc p w) ++ hs) (marked (set_pc p w) ++ ms)
            (dones (history s')) (puts (history s'))
            (_returns s') (_exceptions s')) →
  Inv s → Inv (goto i p s').
Proof.
  intros Hw Hts Hcount' Hws' Hstep (Hcount & Hws & Hled).
  destruct (goto_ledger i w p s s' Hw Hts) as (hs & ms & Hh & Hm & Hh' & Hm' & Hlen).
  split_and!.
  - done.
  - unfold workers_ok. rewrite Hlen. cbn [_workers goto set_threads]. by rewrite Hws'.
  - eapply ledger_perm; [symmetry; exact Hh' | symmetry; exact Hm' |].
    apply Hstep. by eapply ledger_perm.
Qed.

(** Every step of a worker keeps the ledger. *)
Lemma worker_step_Inv i s : Inv s → Inv (worker_step i s).
Proof.
  intros HInv. unfold worker_step.
  destruct (threads s !! i) as [w|] eqn:Hw; [|done].
  destruct (pc w) as [|x|id|r|] eqn:Hpc.
  - unfold tasks_get, Queue_get.
    destruct (items (_tasks s)) as [|x rest] eqn:Hq.
    + eapply Inv_goto; [done|done|apply HInv|done| |done].
      intros hs ms. unfold held, marked. rewrite Hpc. cbn. rewrite Hq.
      by destruct (unwind_cases Empty) as [-> | ->].
    + eapply Inv_goto; [done|done|apply HInv|done| |done].
      intros hs ms. unfold held, marked. rewrite Hpc. cbn. rewrite Hq.
      intros Hled. eapply ledger_rearrange; [exact Hled| |done|simpl; lia].
      destruct x; simpl; [|done]. by rewrite <- Permutation_middle.
  - destruct x as [id func args kwargs|].
    + unfold _execute_task_record, call. unfold_M.
      destruct (func args kwargs) as [v|e].
      * eapply Inv_goto; [done|done|apply HInv|done| |done].
        intros hs ms. unfold held, marked. rewrite Hpc. cbn.
        apply ledger_store_result.
      * destruct (is_Exception e) eqn:Hexc.
        -- cbn. destruct (print_exceptions s); cbn.
           all: eapply Inv_goto; [done|done|apply HInv|done| |done].
           all: intros hs ms; unfold held, marked; rewrite Hpc; cbn.
           all: apply ledger_store_error.
        -- eapply Inv_goto; [done|done|apply HInv|done| |done].
           intros hs ms. unfold held, marked. rewrite Hpc. cbn.
           intros Hled%ledger_drop.
           by destruct (unwind_cases e) as [-> | ->].
    + eapply Inv_goto; [done|done|apply HInv|done| |done].
      intros hs ms. unfold held, marked. rewrite Hpc. cbn.
      apply ledger_drop.
  - destruct HInv as (Hcount & Hws & Hled).
    destruct (goto_ledger i w (Returned (Some true)) s s Hw eq_refl)
      as (hs & ms & Hh & Hm & _).
    unfold marked in Hm. rewrite Hpc in Hm.
    pose proof (ledger_perm _ _ _ _ _ _ _ _ _ _ _ Hh Hm Hled) as Hled'.
    apply ledger_task_done in Hled' as (U' & HU & _).
    unfold tasks_task_done, Queue_task_done. rewrite HU.
    eapply Inv_goto; [done|done|done|done| |done].
    intros hs' ms'. unfold held, marked. rewrite Hpc. cbn. rewrite HU.
    intros Hled'. apply ledger_task_done in Hled' as (U'' & [= <-] & Hled').
    unfold dones, puts in *. rewrite !omap_app. simpl. by rewrite !app_nil_r.
  - destruct (run_breaks r w s).
    all: eapply Inv_goto; [done|done|apply HInv|done| |done].
    all: intros hs ms; unfold held, marked; rewrite Hpc; cbn; done.
  - done.
Qed.

Lemma run_batch_Inv b s : Inv s → Inv (run_batch b s).
Proof.
  unfold run_batch. revert s.
  induction b as [|i b IH]; intros s HInv; [done|].
  simpl. by apply IH, worker_step_Inv.
Qed.

(** *** Relations that every step of a run respects *)

Lemma submit_run func args kwargs s :
  submit func args kwargs s
  = (Ok tt,
     set_history (history s ++ [A_put (Task (_id_creator s) func args kwargs)])
       (set_tasks (Queue_put (Task (_id_creator s) func args kwargs) (_tasks s))
          (set_id_creator (S (_id_creator s)) (set_task_count (task_count s + 1) s)))).
Proof. reflexivity. Qed.

Lemma is_alive_frame s : snd (is_alive s) = s.
Proof. unfold is_alive. unfold_M. by destruct (_workers s). Qed.

Lemma iter_workers_frame s : snd (iter_workers s) = s.
Proof. unfold iter_workers. unfold_M. by destruct (_workers s). Qed.

Section stable.
(** [rel s s']: a relation between a state and a later one, respected by
    the workers' steps and by what [close] and [terminate] do themselves. *)
Context (rel : system → system → Prop).
Context (rel_refl : ∀ s, rel s s).
Context (rel_trans : ∀ s1 s2 s3, rel s1 s2 → rel s2 s3 → rel s1 s3).
Context (rel_worker : ∀ i s, rel s (worker_step i s)).
Context (rel_put : ∀ s, rel s (snd (tasks_put _CYANIDE s))).
Context (rel_discard : ∀ s, rel s (set_workers None s)).
Context (rel_interrupt : ∀ i s,
  rel s (set_threads (alter (set_keyboard_interrupted true) i (threads s)) s)).

Lemma run_batch_keeps b s : rel s (run_batch b s).
Proof.
  unfold run_batch. revert s.
  induction b as [|i b IH]; intros s; [done|].
  simpl. eapply rel_trans; [apply (rel_worker i)|apply IH].
Qed.

Lemma same_state_keeps {A} (m : M A) : (∀ s, snd (m s) = s) → M_keeps rel m.
Proof. intros Hm s. by rewrite Hm. Qed.

Lemma keeps_ret {A} (a : A) : keeps rel (mret a).
Proof. by intros sch s. Qed.

Lemma keeps_bind {A A'} (m : B A) (k : A → B A') :
  keeps rel m → (∀ a, keeps rel (k a)) → keeps rel (m ≫= k).
Proof.
  intros Hm Hk sch s. specialize (Hm sch s).
  unfold mbind, B_bind. destruct (m sch s) as [[a|e] s' sch'|s']; try done.
  eapply rel_trans; [exact Hm|apply Hk].
Qed.

Lemma keeps_atomic {A} (m : M A) : M_keeps rel m → keeps rel (atomic m).
Proof. intros Hm sch s. specialize (Hm s). unfold atomic. by destruct (m s). Qed.

Lemma keeps_yield : keeps rel yield.
Proof. intros [|b sch] s; [done|]. apply run_batch_keeps. Qed.

Lemma keeps_await cond : keeps rel (await cond).
Proof.
  intros sch. induction sch as [|b sch IH]; intros s; simpl.
  - by destruct (cond s).
  - destruct (cond s); [done|].
    eapply rel_trans; [apply (run_batch_keeps b)|apply IH].
Qed.

Lemma keeps_for_each {A} (l : list A) (body : A → B unit) :
  (∀ x, keeps rel (body x)) → keeps rel (for_each l body).
Proof.
  intros Hbody. induction l as [|x l IH]; [apply keeps_ret|].
  apply keeps_bind; [apply Hbody | by intros _].
Qed.

Lemma keeps_attempt {A} (m : B A) : keeps rel m → keeps rel (attempt m).
Proof. intros Hm sch s. specialize (Hm sch s). unfold attempt. by destruct (m sch s). Qed.

Lemma keeps_close_loop : keeps rel close_loop.
Proof.
  intros sch. remember (length sch) as n eqn:Hn. revert sch Hn.
  induction n as [n IH] using lt_wf_ind. intros sch -> s.
  destruct sch as [|b1 [|b2 sch2]]; simpl;
    pose proof (is_alive_frame s) as Hfr;
    destruct (is_alive s) as [[[]|e] s1]; simpl in Hfr; subst s1; try done.
  - eapply rel_trans; [apply (run_batch_keeps b1)|apply rel_put].
  - eapply rel_trans; [apply (run_batch_keeps b1)|].
    eapply rel_trans; [apply rel_put|].
    eapply rel_trans; [apply (run_batch_keeps b2)|].
    eapply IH; [|done]. simpl. lia.
Qed.

Lemma keeps_drain : keeps rel drain.
Proof. apply keeps_await. Qed.

Lemma keeps_close raise_exec : keeps rel (close raise_exec).
Proof.
  unfold close.
  repeat (apply keeps_bind; [|intros _]);
    auto using keeps_drain, keeps_yield, keeps_close_loop.
  apply keeps_atomic. intros s. apply rel_discard.
Qed.

Lemma keeps_stop : keeps rel stop.
Proof. intros sch s. by rewrite stop_always_raises. Qed.

Lemma keeps_terminate : keeps rel terminate.
Proof.
  unfold terminate. apply keeps_bind.
  { apply keeps_atomic, same_state_keeps, iter_workers_frame. }
  intros ws. apply keeps_bind; [|intros _; apply keeps_bind].
  - apply keeps_for_each. intros i.
    apply keeps_bind; [apply keeps_yield|intros _].
    apply keeps_atomic. intros s. apply rel_interrupt.
  - apply keeps_yield.
  - intros _. apply keeps_close.
Qed.

(** Every call but [submit]. *)
Lemma keeps_run_call c :
  (∀ func args kwargs, M_keeps rel (submit func args kwargs) ∨ c ≠ c_submit func args kwargs) →
  keeps rel (run_call c).
Proof.
  intros Hsubmit. destruct c; simpl; apply keeps_attempt.
  - apply keeps_atomic. by destruct (Hsubmit func args kwargs).
  - apply keeps_drain.
  - apply keeps_close.
  - apply keeps_stop.
  - apply keeps_terminate.
  - apply keeps_atomic, same_state_keeps, is_alive_frame.
  - apply keeps_atomic, same_state_keeps, returns_frame.
  - apply keeps_atomic, same_state_keeps, exceptions_frame.
  - apply keeps_atomic, same_state_keeps, raise_first_frame.
Qed.

Lemma keeps_run_script cs :
  (∀ func args kwargs, M_keeps rel (submit func args kwargs)) → keeps rel (run_script cs).
Proof.
  intros Hsubmit.
  induction cs as [|c cs IH]; simpl; [apply keeps_yield|].
  apply keeps_bind; [apply keeps_yield|intros _].
  apply keeps_bind; [|by intros _].
  apply keeps_run_call. intros. left. apply Hsubmit.
Qed.
End stable.

(** *** The ledger holds throughout *)

Lemma init_threads_idle (l : list nat) :
  (ThreadedWorker_init <$> l) ≫= held = [] ∧ (ThreadedWorker_init <$> l) ≫= marked = [].
Proof.
  induction l as [|i l [IH1 IH2]]; [done|].
  by rewrite fmap_cons, !bind_cons, IH1, IH2.
Qed.

Lemma __init___Inv size timeout pe : Inv (__init__ size timeout pe).
Proof.
  split_and!; [done| |].
  - right. cbn. by rewrite length_fmap, length_seq.
  - unfold in_flight, marking. cbn -[seq].
    destruct (init_threads_idle (seq 0 size)) as [-> ->].
    apply ledger_init.
Qed.

Lemma submit_Inv func args kwargs s : Inv_kept s (snd (submit func args kwargs s)).
Proof.
  intros (Hcount & Hws & Hled). rewrite submit_run. split_and!.
  - cbn. lia.
  - done.
  - cbn. unfold dones, puts. rewrite !omap_app. cbn. rewrite app_nil_r.
    by apply ledger_submit.
Qed.

Lemma put_sentinel_Inv s : Inv_kept s (snd (tasks_put _CYANIDE s)).
Proof.
  intros (Hcount & Hws & Hled). split_and!; [done..|].
  cbn. unfold dones, puts. rewrite !omap_app. cbn. rewrite app_nil_r.
  by apply ledger_poison.
Qed.

Lemma discard_workers_Inv s : Inv_kept s (set_workers None s).
Proof. intros (Hcount & Hws & Hled). split_and!; [done| by left | done]. Qed.

Lemma alter_bind_same {A C} (f : A → A) (g : A → list C) (ts : list A) i :
  (∀ w, g (f w) = g w) → alter f i ts ≫= g = ts ≫= g.
Proof.
  intros Hfg. revert i. induction ts as [|w ts IH]; intros [|i]; try done.
  - cbn. by rewrite Hfg.
  - change (alter f (S i) (w :: ts)) with (w :: alter f i ts).
    by rewrite !bind_cons, IH.
Qed.

Lemma interrupt_Inv i s :
  Inv_kept s (set_threads (alter (set_keyboard_interrupted true) i (threads s)) s).
Proof.
  intros (Hcount & Hws & Hled). split_and!; [done| |].
  - unfold workers_ok. cbn. by rewrite length_alter.
  - cbn. unfold in_flight, marking. cbn. by rewrite !alter_bind_same.
Qed.

Lemma Inv_kept_by {A} (m : B A) sch s :
  keeps Inv_kept m → Inv s → Inv (outcome_state (m sch s)).
Proof. intros Hm. apply Hm. Qed.

Lemma Inv_kept_refl s : Inv_kept s s.
Proof. by intros ?. Qed.

Lemma Inv_kept_trans s1 s2 s3 : Inv_kept s1 s2 → Inv_kept s2 s3 → Inv_kept s1 s3.
Proof. unfold Inv_kept. auto. Qed.

Local Ltac Inv_kept_facts :=
  first [ exact Inv_kept_refl | exact Inv_kept_trans | exact worker_step_Inv
        | exact put_sentinel_Inv | exact discard_workers_Inv | exact interrupt_Inv ].

Lemma close_Inv raise_exec sch s : Inv s → Inv (outcome_state (close raise_exec sch s)).
Proof. apply Inv_kept_by, keeps_close; Inv_kept_facts. Qed.

Lemma drain_Inv sch s : Inv s → Inv (outcome_state (drain sch s)).
Proof. apply Inv_kept_by, keeps_drain; Inv_kept_facts. Qed.

Lemma run_script_Inv cs sch s : Inv s → Inv (outcome_state (run_script cs sch s)).
Proof.
  apply Inv_kept_by, keeps_run_script; try Inv_kept_facts.
  intros func args kwargs s'. apply submit_Inv.
Qed.

(** The ledger holds in every state the executor can be found in. *)
Lemma reachable_Inv s : reachable s → Inv s.
Proof.
  intros (size & timeout & pe & cs & sch & sch' & Hrun).
  pose proof (run_script_Inv cs sch _ (__init___Inv size timeout pe)) as H.
  by rewrite Hrun in H.
Qed.

(** *** The task counter follows the calls to [submit] *)

Lemma worker_step_task_count i s : count_kept s (worker_step i s).
Proof.
  unfold count_kept, worker_step.
  destruct (threads s !! i) as [w|]; [|done].
  destruct (pc w) as [|[id func args kwargs|]|id|r|]; try done.
  - unfold tasks_get. by destruct (Queue_get (_tasks s)) as [[x|e] q].
  - unfold _execute_task_record, call. unfold_M.
    destruct (func args kwargs) as [v|e]; [done|].
    destruct (is_Exception e); [|done]. cbn.
    by destruct (print_exceptions s).
  - unfold tasks_task_done. by destruct (Queue_task_done (_tasks s)) as [[[]|e] q].
  - by destruct (run_breaks r w s).
Qed.

Local Ltac count_kept_facts :=
  first [ exact worker_step_task_count
        | by intros ?
        | by (intros s1 s2 s3; unfold count_kept; congruence)
        | by intros ? ? ].

Lemma run_call_task_count c sch s r s' sch' :
  run_call c sch s = Fin r s' sch' →
  task_count s' = task_count s + submissions [c].
Proof.
  intros Hrun.
  destruct (decide (submissions [c] = 0)) as [Hc|Hc].
  - rewrite Hc, Nat.add_0_r.
    assert (keeps count_kept (run_call c)) as Hkeeps.
    { apply keeps_run_call; try count_kept_facts.
      intros func args kwargs. right. by intros ->. }
    specialize (Hkeeps sch s). by rewrite Hrun in Hkeeps.
  - destruct c; try done. simpl in Hrun. unfold attempt, atomic in Hrun.
    rewrite submit_run in Hrun. by inversion Hrun.
Qed.

Lemma yield_run sch s : ∃ s' sch', yield sch s = Fin (Ok tt) s' sch' ∧ count_kept s s'.
Proof.
  assert (keeps count_kept yield) as Hkeeps by (apply keeps_yield; count_kept_facts).
  specialize (Hkeeps sch s).
  destruct sch as [|b sch]; simpl in *; eauto.
Qed.

Lemma run_call_result c sch s r s' sch' : run_call c sch s = Fin r s' sch' → r = Ok tt.
Proof.
  destruct c; simpl; unfold attempt;
    match goal with |- context [match ?m sch s with _ => _ end] => destruct (m sch s) end;
    by intros [= <- _ _].
Qed.

Lemma run_script_task_count cs sch s r s' sch' :
  run_script cs sch s = Fin r s' sch' →
  task_count s' = task_count s + submissions cs.
Proof.
  revert sch s. induction cs as [|c cs IH]; intros sch s Hrun; simpl in Hrun.
  - destruct (yield_run sch s) as (s1 & sch1 & Hy & Hc). rewrite Hy in Hrun.
    inversion Hrun; subst. unfold count_kept in Hc. simpl. lia.
  - unfold mbind, B_bind in Hrun.
    destruct (yield_run sch s) as (s1 & sch1 & Hy & Hc). rewrite Hy in Hrun.
    destruct (run_call c sch1 s1) as [r2 s2 sch2|] eqn:Hcall; [|done].
    pose proof (run_call_result _ _ _ _ _ _ Hcall) as ->.
    apply run_call_task_count in Hcall. apply IH in Hrun.
    unfold count_kept in Hc. rewrite Hrun, Hcall, Hc.
    destruct c; simpl; lia.
Qed.

(** *** After [drain()] *)

Lemma await_Fin cond sch s r s' sch' :
  await cond sch s = Fin r s' sch' → r = Ok tt ∧ cond s' = true.
Proof.
  revert s. induction sch as [|b sch IH]; intros s; simpl.
  - destruct (cond s) eqn:Hc; [|done]. by intros [= <- <- <-].
  - destruct (cond s) eqn:Hc; [by intros [= <- <- <-]|]. apply IH.
Qed.

(** With nothing unfinished every id handed out has its outcome in
    exactly one of the two maps. *)
Lemma Inv_drained s :
  Inv s → unfinished_tasks (_tasks s) = 0 →
  size (_returns s) + size (_exceptions s) = task_count s
  ∧ ∀ id, id < task_count s →
      (is_Some (_returns s !! id) ∧ _exceptions s !! id = None)
      ∨ (_returns s !! id = None ∧ is_Some (_exceptions s !! id)).
Proof.
  intros (Hcount & _ & []) HU. rewrite Hcount. rewrite HU in *.
  assert (items (_tasks s) = [] ∧ in_flight s = []) as [HQ HH].
  { split; apply length_zero_iff_nil; lia. }
  assert (∀ id, id < _id_creator s →
            is_Some (_returns s !! id) ∨ is_Some (_exceptions s !! id)) as Hall.
  { intros id Hid. destruct (ledger_complete0 ltac:(lia) id Hid) as [Hin|?]; [|done].
    rewrite HQ, HH in Hin. by apply elem_of_nil in Hin. }
  split.
  - rewrite <- !size_dom, <- size_union.
    + replace (dom (_returns s) ∪ dom (_exceptions s)) with (set_seq 0 (_id_creator s) : gset nat).
      { apply size_set_seq. }
      apply set_eq. intros id. rewrite elem_of_set_seq, elem_of_union, !elem_of_dom.
      split; [intros [_ Hid]; by apply Hall | intros Hid; split; [lia|by apply ledger_keys0]].
    + intros id. rewrite !elem_of_dom. intros HR HE.
      apply ledger_disjoint0 in HR. rewrite HR in HE. by destruct HE.
  - intros id Hid. destruct (Hall id Hid) as [HR|HE].
    + left. split; [done|by apply ledger_disjoint0].
    + right. split; [|done]. apply eq_None_not_Some. intros HR.
      apply ledger_disjoint0 in HR. rewrite HR in HE. by destruct HE.
Qed.

(** C3. After any script that submits [N] tasks, once [drain()] has
    returned the two views together hold [N] entries and every id in
    [0, N) is in exactly one of the two maps. *)
Theorem C3_drain_accounts_for_every_task
    (size timeout : nat) (pe : bool) (cs : list api)
    (sch sch1 sch2 : schedule) (s s' : system) :
  run_script cs sch (__init__ size timeout pe) = Fin (Ok tt) s sch1 →
  drain sch1 s = Fin (Ok tt) s' sch2 →
  ∃ vs es,
    fst (returns s') = Ok vs
    ∧ fst (exceptions s') = Ok es
    ∧ length vs + length es = submissions cs
    ∧ ∀ id, id < submissions cs →
        (is_Some (_returns s' !! id) ∧ _exceptions s' !! id = None)
        ∨ (_returns s' !! id = None ∧ is_Some (_exceptions s' !! id)).
Proof.
  intros Hrun Hdrain.
  assert (Inv s) as HInv.
  { apply reachable_Inv. by exists size, timeout, pe, cs, sch, sch1. }
  assert (Inv s') as HInv'.
  { pose proof (drain_Inv sch1 s HInv) as H. by rewrite Hdrain in H. }
  assert (task_count s' = submissions cs) as HN.
  { assert (keeps count_kept drain) as Hkeeps by (apply keeps_drain; count_kept_facts).
    specialize (Hkeeps sch1 s). rewrite Hdrain in Hkeeps. simpl in Hkeeps.
    apply run_script_task_count in Hrun. simpl in Hrun. unfold count_kept in Hkeeps. lia. }
  apply await_Fin in Hdrain as [_ HU]. apply bool_decide_eq_true in HU.
  destruct (Inv_drained s' HInv' HU) as [Hsize Hone].
  destruct (returns_spec s') as (vs & Hr & Hvs).
  destruct (exceptions_spec s') as (es & He & Hes).
  exists vs, es. rewrite Hr, He, <- HN.
  split_and!; [done|done| |done].
  by rewrite (ascending_view_length _ _ Hvs), (ascending_view_length _ _ Hes).
Qed.

Lemma C3_witness :
  ∃ vs es,
    fst (returns drained3) = Ok vs
    ∧ fst (exceptions drained3) = Ok es
    ∧ length vs + length es = submissions batch3
    ∧ ∀ id, id < submissions batch3 →
        (is_Some (_returns drained3 !! id) ∧ _exceptions drained3 !! id = None)
        ∨ (_returns drained3 !! id = None ∧ is_Some (_exceptions drained3 !! id)).
Proof.
  apply (C3_drain_accounts_for_every_task 2 100 false batch3 sched3
           [[0; 1; 1; 1; 1; 1; 1; 1; 0; 0]] [] submitted3 drained3).
  - vm_compute. reflexivity.
  - vm_compute. reflexivity.
Defined.

(** The same views whatever the order of completion. *)
Example drained3_views :
  dones (history drained3) = [1; 2; 0]
  ∧ dones (history drained3_in_order) = [0; 1; 2]
  ∧ fst (returns drained3) = Ok [PyInt 7; PyInt 7]
  ∧ fst (returns drained3_in_order) = Ok [PyInt 7; PyInt 7]
  ∧ fst (exceptions drained3) = Ok [Exc "ValueError" "boom"]
  ∧ fst (exceptions drained3_in_order) = Ok [Exc "ValueError" "boom"]
  ∧ fst (raise_first drained3) = Raise (Exc "ValueError" "boom").
Proof. vm_compute. done. Qed.

(** *** After [close()] *)

Lemma existsb_false_elem_of {A} (f : A → bool) (l : list A) x :
  existsb f l = false → x ∈ l → f x = false.
Proof.
  induction l as [|y l IH]; intros Hex Hx; [by apply elem_of_nil in Hx|].
  simpl in Hex. apply orb_false_iff in Hex as [Hy Hl].
  apply elem_of_cons in Hx as [->|Hx]; auto.
Qed.

Lemma is_alive_run s :
  is_alive s
  = match _workers s with
    | None => (Raise (TypeError "'NoneType' object is not iterable"), s)
    | Some l => (Ok (existsb (worker_is_alive (threads s)) l), s)
    end.
Proof. unfold is_alive. unfold_M. cbv beta. by destruct (_workers s). Qed.

(** When [is_alive] answers [False], no thread the executor started runs. *)
Lemma is_alive_false_all_dead s :
  workers_ok s → fst (is_alive s) = Ok false → all_dead s.
Proof.
  intros Hws Halive. rewrite is_alive_run in Halive. unfold workers_ok in Hws.
  destruct (_workers s) as [l|] eqn:Hl; [|done].
  destruct Hws as [?|[= ->]]; [done|]. simpl in Halive.
  injection Halive as Hex.
  apply Forall_lookup. intros i w Hw.
  assert (worker_is_alive (threads s) i = false) as Hi.
  { apply (existsb_false_elem_of _ _ _ Hex).
    apply elem_of_seq. apply lookup_lt_Some in Hw. lia. }
  unfold worker_is_alive in Hi. by rewrite Hw in Hi.
Qed.

(** A thread that is over takes no step. *)
Lemma dead_worker_step i s : all_dead s → worker_step i s = s.
Proof.
  intros Hdead. unfold worker_step.
  destruct (threads s !! i) as [w|] eqn:Hw; [|done].
  pose proof (Forall_lookup_1 _ _ _ _ Hdead Hw) as Hwd. simpl in Hwd.
  unfold Thread_is_alive in Hwd. by destruct (pc w).
Qed.

Lemma dead_run_batch b s : all_dead s → run_batch b s = s.
Proof.
  intros Hdead. unfold run_batch. induction b as [|i b IH]; [done|].
  simpl. by rewrite dead_worker_step.
Qed.

Lemma dead_yield sch s :
  all_dead s → ∃ sch', yield sch s = Fin (Ok tt) s sch'.
Proof.
  intros Hdead. destruct sch as [|b sch]; simpl; [by eexists|].
  rewrite dead_run_batch by done. by eexists.
Qed.

Lemma close_loop_Ok sch s s' sch' :
  close_loop sch s = Fin (Ok tt) s' sch' → fst (is_alive s') = Ok false.
Proof.
  remember (length sch) as n eqn:Hn. revert sch Hn s.
  induction n as [n IH] using lt_wf_ind. intros sch -> s.
  destruct sch as [|b1 [|b2 sch2]]; simpl;
    pose proof (is_alive_frame s) as Hfr;
    destruct (is_alive s) as [[[]|e] s1] eqn:Halive; simpl in Hfr; subst s1; try done.
  - intros [= <- <-]. by rewrite Halive.
  - intros [= <- <-]. by rewrite Halive.
  - eapply IH; [|done]. simpl. lia.
  - intros [= <- <-]. by rewrite Halive.
Qed.

(** What [close()] has done when it returns: it saw every worker dead
    at its last test of [is_alive], and then set [_workers] to [None]. *)
Lemma close_returns raise_exec sch s s' sch' :
  Inv s → close raise_exec sch s = Fin (Ok tt) s' sch' →
  ∃ s3, Inv s3 ∧ fst (is_alive s3) = Ok false ∧ all_dead s3 ∧ s' = set_workers None s3.
Proof.
  intros HInv Hclose. unfold close, mbind, B_bind in Hclose.
  pose proof (drain_Inv sch s HInv) as HInv1.
  destruct (drain sch s) as [[[]|e] s1 sch1|]; [|done..]. simpl in HInv1.
  pose proof (Inv_kept_by yield sch1 s1) as HInv2.
  destruct (yield sch1 s1) as [[[]|e] s2 sch2|]; [|done..]. simpl in HInv2.
  assert (Inv s2) as HI2.
  { apply HInv2; [|done]. apply keeps_yield;
      [exact Inv_kept_refl | exact Inv_kept_trans | exact worker_step_Inv]. }
  pose proof (Inv_kept_by close_loop sch2 s2) as HInv3.
  destruct (close_loop sch2 s2) as [[[]|e] s3 sch3|] eqn:Hloop; [|done..]. simpl in HInv3.
  assert (Inv s3) as HI3.
  { apply HInv3; [|done]. apply keeps_close_loop;
      [exact Inv_kept_refl | exact Inv_kept_trans | exact worker_step_Inv
      | exact put_sentinel_Inv]. }
  apply close_loop_Ok in Hloop.
  assert (all_dead s3) as Hdead by (apply is_alive_false_all_dead; [apply HI3|done]).
  destruct (dead_yield sch3 s3 Hdead) as (sch4 & Hy). rewrite Hy in Hclose.
  unfold atomic, modify in Hclose. injection Hclose as <- <-.
  by exists s3.
Qed.

Lemma init_reachable size timeout pe : reachable (__init__ size timeout pe).
Proof. exists size, timeout, pe, [], [], []. reflexivity. Qed.

(** C6, as stated, fails: after this [close()] has returned, evaluating
    [is_alive] does not give [False], it raises [TypeError], because
    [_workers] is [None]. *)
Lemma C6_is_alive_after_close_raises :
  close false sched_close1 (__init__ 1 100 false) = Fin (Ok tt) closed1 []
  ∧ fst (is_alive closed1) = Raise (TypeError "'NoneType' object is not iterable")
  ∧ fst (is_alive closed1) ≠ Ok false.
Proof. vm_compute. split_and!; [reflexivity..|discriminate]. Qed.

(** C6 (amended). After [close()] has returned, no worker thread the
    executor started is still running and the worker collection has been
    discarded: [_workers] is [None]. *)
Theorem C6_close_leaves_no_live_worker
    (sch sch' : schedule) (s s' : system) :
  reachable s →
  close false sch s = Fin (Ok tt) s' sch' →
  all_dead s' ∧ _workers s' = None.
Proof.
  intros Hs Hclose.
  destruct (close_returns _ _ _ _ _ (reachable_Inv s Hs) Hclose) as (s3 & _ & _ & Hdead & ->).
  split; [exact Hdead | reflexivity].
Qed.

Lemma C6_witness : all_dead closed1 ∧ _workers closed1 = None.
Proof.
  apply (C6_close_leaves_no_live_worker sched_close1 [] (__init__ 1 100 false) closed1).
  - apply init_reachable.
  - vm_compute. reflexivity.
Defined.

(** *** The queue's counter *)

Lemma closed1_reachable : reachable closed1.
Proof.
  exists 1, 100, false, [c_close], ([] :: sched_close1), [].
  vm_compute. reflexivity.
Qed.

(** C7, as stated, fails: in the run above no task was ever submitted and
    the one sentinel that [close()] put stands in the counter, which is
    left at 1. *)
Lemma C7_sentinel_is_counted :
  reachable closed1
  ∧ task_count closed1 = 0
  ∧ puts (history closed1) = [_CYANIDE]
  ∧ dones (history closed1) = []
  ∧ unfinished_tasks (_tasks closed1) = 1
  ∧ ¬ counts_tasks_only closed1.
Proof.
  split; [apply closed1_reachable|].
  vm_compute. split_and!; [reflexivity..|discriminate].
Qed.

Lemma entries_split (l : list entry) :
  length l = length (task_ids l) + length (sentinels l).
Proof.
  unfold sentinels. induction l as [|[id func args kwargs|] l IH]; [done|..].
  - rewrite filter_cons_False by done. simpl. lia.
  - rewrite filter_cons_True by done. simpl. lia.
Qed.

Lemma NoDup_below_length (l : list nat) n :
  NoDup l → (∀ x, x ∈ l → x < n) → length l ≤ n.
Proof.
  intros Hnd Hlt. rewrite <- (length_seq n 0).
  apply submseteq_length, NoDup_submseteq; [done|].
  intros x Hx. apply elem_of_seq. specialize (Hlt x Hx). lia.
Qed.

(** C7 (amended). The counter that [drain()] waits on counts every entry
    put on the queue, the sentinels of [close()] as well as the tasks: it
    stands at the tasks submitted plus the sentinels put, minus the tasks
    marked done.  A task is marked done at most once, only tasks are marked
    done, and so every sentinel put stays in the counter. *)
Theorem C7_counter_counts_every_put (s : system) :
  reachable s →
  unfinished_tasks (_tasks s) + length (dones (history s))
  = task_count s + length (sentinels (puts (history s)))
  ∧ NoDup (dones (history s))
  ∧ (∀ id, id ∈ dones (history s) → id < task_count s)
  ∧ length (sentinels (puts (history s))) ≤ unfinished_tasks (_tasks s).
Proof.
  intros (Hcount & _ & [])%reachable_Inv.
  assert (NoDup (dones (history s))) as Hnd.
  { apply NoDup_app in ledger_NoDup0 as (_ & _ & H1).
    apply NoDup_app in H1 as (_ & _ & H2).
    by apply NoDup_app in H2 as (_ & _ & H3). }
  assert (∀ id, id ∈ dones (history s) → id < task_count s) as Hlt.
  { intros id Hid. rewrite Hcount. apply ledger_bound0.
    rewrite !elem_of_app. auto. }
  pose proof (NoDup_below_length _ _ Hnd Hlt) as Hlen.
  pose proof (entries_split (puts (history s))) as Hsplit.
  rewrite ledger_put0, length_seq, <- Hcount in Hsplit.
  split_and!; [lia|done|done|lia].
Qed.

Lemma C7_witness :
  unfinished_tasks (_tasks closed1) + length (dones (history closed1))
  = task_count closed1 + length (sentinels (puts (history closed1)))
  ∧ NoDup (dones (history closed1))
  ∧ (∀ id, id ∈ dones (history closed1) → id < task_count closed1)
  ∧ length (sentinels (puts (history closed1))) ≤ unfinished_tasks (_tasks closed1).
Proof.
  apply (C7_counter_counts_every_put closed1).
  exists 1, 100, false, [c_close], ([] :: sched_close1), [].
  vm_compute. reflexivity.
Defined.

(** *** [submit] after [close()] *)

(** C9. [submit()] after [close()] has returned raises nothing: as before
    [close()], it counts the task, takes the next id and puts the tuple on
    the queue; [_workers] is [None], no worker thread runs, and no step of
    any worker will ever take the task off the queue. *)
Theorem C9_submit_after_close_is_accepted
    (sch sch' : schedule) (s s' : system)
    (func : callable) (args : list pyobj) (kwargs : list (string * pyobj)) :
  reachable s →
  close false sch s = Fin (Ok tt) s' sch' →
  submit func args kwargs s' = (Ok tt, submitted func args kwargs s')
  ∧ submit func args kwargs s = (Ok tt, submitted func args kwargs s)
  ∧ task_count (submitted func args kwargs s') = task_count s' + 1
  ∧ items (_tasks (submitted func args kwargs s'))
    = items (_tasks s') ++ [Task (_id_creator s') func args kwargs]
  ∧ _workers (submitted func args kwargs s') = None
  ∧ all_dead (submitted func args kwargs s')
  ∧ ∀ b, run_batch b (submitted func args kwargs s') = submitted func args kwargs s'.
Proof.
  intros Hs Hclose.
  destruct (close_returns _ _ _ _ _ (reachable_Inv s Hs) Hclose) as (s3 & _ & _ & Hdead & ->).
  split_and!; try reflexivity.
  - exact Hdead.
  - intros b. by apply dead_run_batch.
Qed.

Lemma C9_witness :
  submit ok7 [] [] closed1 = (Ok tt, submitted ok7 [] [] closed1)
  ∧ submit ok7 [] [] (__init__ 1 100 false) = (Ok tt, submitted ok7 [] [] (__init__ 1 100 false))
  ∧ task_count (submitted ok7 [] [] closed1) = task_count closed1 + 1
  ∧ items (_tasks (submitted ok7 [] [] closed1))
    = items (_tasks closed1) ++ [Task (_id_creator closed1) ok7 [] []]
  ∧ _workers (submitted ok7 [] [] closed1) = None
  ∧ all_dead (submitted ok7 [] [] closed1)
  ∧ ∀ b, run_batch b (submitted ok7 [] [] closed1) = submitted ok7 [] [] closed1.
Proof.
  apply (C9_submit_after_close_is_accepted sched_close1 [] (__init__ 1 100 false) closed1).
  - apply init_reachable.
  - vm_compute. reflexivity.
Defined.

(** ** The worker loop on an empty queue *)

Lemma empty_timeout_returns_None s :
  items (_tasks s) = [] → fst (_execute_next_task s) = Ok None.
Proof.
  intros Hq. unfold _execute_next_task, try_except, mbind, M_bind, tasks_get, Queue_get.
  by rewrite Hq.
Qed.

Lemma run_breaks_None w s : run_breaks None w s = true.
Proof. reflexivity. Qed.

Lemma goto_lookup i w p s :
  threads s !! i = Some w → threads (goto i p s) !! i = Some (set_pc p w).
Proof. intros Hw. cbn. by rewrite list_lookup_alter_eq, Hw. Qed.

(** Whatever the flags: a worker whose [get] times out is over two steps
    later. *)
Lemma empty_timeout_ends_worker i w s :
  threads s !! i = Some w → pc w = Fetching → items (_tasks s) = [] →
  worker_is_alive (threads (run_batch [i; i] s)) i = false.
Proof.
  intros Hw Hpc Hq. unfold run_batch. simpl.
  assert (worker_step i s = goto i (Returned None) s) as ->.
  { unfold worker_step, tasks_get, Queue_get. rewrite Hw, Hpc, Hq.
    by destruct s as [? ? ? ? ? ? ? [] ? ? ? ? ?]. }
  pose proof (goto_lookup i w (Returned None) s Hw) as Hw'.
  unfold worker_step. rewrite Hw'. cbn [pc set_pc].
  rewrite run_breaks_None.
  unfold worker_is_alive. by rewrite (goto_lookup i _ Dead _ Hw').
Qed.

(** C1 (as the code behaves). A pool of one worker, nothing submitted, no
    stop signal, no interrupt flag, no sentinel: the worker's first [get]
    times out, [_execute_next_task] returns [None], [not None] is true, the
    loop of [run] breaks and the thread is over. *)
Theorem C1_empty_timeout_stops_worker :
  fst (_execute_next_task (__init__ 1 100 false)) = Ok None
  ∧ threads (__init__ 1 100 false)
    = [{| index := 0; keyboard_interrupted := false; pc := Fetching |}]
  ∧ _run_event (__init__ 1 100 false) = false
  ∧ threads (worker_step 0 (__init__ 1 100 false))
    = [{| index := 0; keyboard_interrupted := false; pc := Returned None |}]
  ∧ threads (run_batch [0; 0] (__init__ 1 100 false))
    = [{| index := 0; keyboard_interrupted := false; pc := Dead |}]
  ∧ fst (is_alive (run_batch [0; 0] (__init__ 1 100 false))) = Ok false
  ∧ history (run_batch [0; 0] (__init__ 1 100 false)) = [].
Proof. vm_compute. split_and!; reflexivity. Qed.

(** ** The executor as a context manager *)

Lemma __exit___run type value traceback sch s :
  __exit__ type value traceback sch s
  = match close false sch s with
    | Fin (Ok _) s' sch' => Fin (Ok false) s' sch'
    | Fin (Raise e) s' sch' => Fin (Raise e) s' sch'
    | Blocked s' => Blocked s'
    end.
Proof.
  unfold __exit__, mbind, B_bind.
  by destruct (close false sch s) as [[[]|e] s' sch'|s'].
Qed.

Lemma with_stmt_run {A} (block : system → B A) sch s :
  with_stmt block sch s
  = match block s sch s with
    | Blocked s1 => Blocked s1
    | Fin r s1 sch1 =>
        match close false sch1 s1 with
        | Fin (Ok _) s2 sch2 =>
            Fin (match r with Ok a => Ok (Some a) | Raise e => Raise e end) s2 sch2
        | Fin (Raise e') s2 sch2 => Fin (Raise e') s2 sch2
        | Blocked s2 => Blocked s2
        end
    end.
Proof.
  unfold with_stmt, atomic, __enter__. cbv beta iota.
  destruct (block s sch s) as [[a|e] s1 sch1|s1]; [| |done].
  - unfold mbind, B_bind. rewrite __exit___run.
    by destruct (close false sch1 s1) as [[[]|e'] s2 sch2|s2].
  - unfold mbind, B_bind. rewrite __exit___run.
    by destruct (close false sch1 s1) as [[[]|e'] s2 sch2|s2].
Qed.

(** The error of the block reaches the caller of the [with] statement,
    after [close()] has waited for the task and ended the worker; the
    task's own error stays in the map. *)
Example with_stmt_error_propagates :
  ∃ s', with_stmt failing_block sched_scope (__init__ 1 100 false)
        = Fin (Raise (Exc "RuntimeError" "in scope")) s' []
        ∧ _workers s' = None
        ∧ all_dead s'
        ∧ fst (exceptions s') = Ok [Exc "ValueError" "boom"].
Proof.
  eexists. split; [vm_compute; reflexivity|].
  split; [reflexivity|]. split; [|by vm_compute].
  repeat constructor.
Qed.

(** C8. Entering the scope hands the executor itself to the block and
    changes nothing.  However the block ends, with a value or with an
    error, [__exit__] runs [close()] on the state the block left.  When
    [close()] returns, [__exit__] returns [False] and the statement ends as
    the block did: an error of the block is raised to the caller, in the
    state [close()] left.  The statement never ends as if the error had
    been swallowed. *)
Theorem C8_scope_closes_and_propagates
    {A : Type} (block : system → B A) (sch : schedule) (s : system) :
  __enter__ s = (Ok s, s)
  ∧ match block s sch s with
    | Blocked s1 => with_stmt block sch s = Blocked s1
    | Fin r s1 sch1 =>
        match close false sch1 s1 with
        | Fin (Ok _) s2 sch2 =>
            __exit__ None None None sch1 s1 = Fin (Ok false) s2 sch2
            ∧ with_stmt block sch s
              = Fin (match r with Ok a => Ok (Some a) | Raise e => Raise e end) s2 sch2
        | Fin (Raise e') s2 sch2 => with_stmt block sch s = Fin (Raise e') s2 sch2
        | Blocked s2 => with_stmt block sch s = Blocked s2
        end
    end
  ∧ ∀ s' sch', with_stmt block sch s ≠ Fin (Ok None) s' sch'.
Proof.
  split; [reflexivity|].
  rewrite with_stmt_run.
  destruct (block s sch s) as [r s1 sch1|s1]; [|done].
  rewrite __exit___run.
  destruct (close false sch1 s1) as [[[]|e'] s2 sch2|s2]; [|done..].
  split; [done|]. intros s' sch'. by destruct r.
Qed.

(** ** One turn of the worker loop is [_execute_next_task] *)

Lemma set_pc_twice (ts : list ThreadedWorker) i p q :
  alter (set_pc p) i (alter (set_pc q) i ts) = alter (set_pc p) i ts.
Proof.
  revert i. induction ts as [|w ts IH]; intros [|i]; try done.
  change (w :: alter (set_pc p) i (alter (set_pc q) i ts) = w :: alter (set_pc p) i ts).
  by rewrite IH.
Qed.

Lemma goto_goto i p q s : goto i p (goto i q s) = goto i p s.
Proof. unfold goto. cbn. by rewrite set_pc_twice. Qed.

Lemma record_goto id func args kwargs i p s :
  _execute_task_record id func args kwargs (goto i p s)
  = (fst (_execute_task_record id func args kwargs s),
     goto i p (snd (_execute_task_record id func args kwargs s))).
Proof.
  unfold _execute_task_record, call. unfold_M.
  destruct (func args kwargs) as [v|e]; [done|].
  destruct (is_Exception e); [|done]. cbn.
  by destruct (print_exceptions s).
Qed.

Lemma task_done_goto id i p s :
  tasks_task_done id (goto i p s)
  = (fst (tasks_task_done id s), goto i p (snd (tasks_task_done id s))).
Proof.
  unfold tasks_task_done, Queue_task_done. cbn.
  by destruct (unfinished_tasks (_tasks s)).
Qed.

Lemma worker_step_at i w s :
  threads s !! i = Some w →
  worker_step i s
  = match pc w with
    | Fetching =>
        match tasks_get s with
        | (Ok x, s') => goto i (Got x) s'
        | (Raise e, s') => goto i (unwind e) s'
        end
    | Got _CYANIDE => goto i (Returned (Some false)) s
    | Got (Task id func args kwargs) =>
        match _execute_task_record id func args kwargs s with
        | (Ok _, s') => goto i (Marking id) s'
        | (Raise e, s') => goto i (unwind e) s'
        end
    | Marking id =>
        match tasks_task_done id s with
        | (Ok _, s') => goto i (Returned (Some true)) s'
        | (Raise e, s') => goto i (unwind e) s'
        end
    | Returned r => if run_breaks r w s then goto i Dead s else goto i Fetching s
    | Dead => s
    end.
Proof. intros Hw. unfold worker_step. by rewrite Hw. Qed.

Lemma unwind_try_except (e : pyexc) (s : system) i :
  goto i (unwind e) s
  = iteration_end i (if is_Empty e then (Ok None, s) else (Raise e, s)).
Proof. unfold unwind. by destruct (is_Empty e). Qed.

(** From its [get] on, a worker needs at most three steps to be where the
    call of [_execute_next_task] on the same state leaves it. *)
Lemma worker_iteration i w s :
  threads s !! i = Some w → pc w = Fetching →
  ∃ n, 1 ≤ n ≤ 3
       ∧ Nat.iter n (worker_step i) s = iteration_end i (_execute_next_task s).
Proof.
  intros Hw Hpc.
  unfold _execute_next_task, _execute_task, try_except, mbind, M_bind, mret, M_ret.
  assert (threads (snd (tasks_get s)) = threads s) as Hts.
  { unfold tasks_get. by destruct (Queue_get (_tasks s)). }
  pose proof (worker_step_at i w s Hw) as Hstep1. rewrite Hpc in Hstep1.
  destruct (tasks_get s) as [[x|e] s1] eqn:Hget; simpl in Hts.
  2: { exists 1. split; [lia|]. simpl. rewrite Hstep1. apply unwind_try_except. }
  assert (threads s1 !! i = Some w) as Hw1 by (by rewrite Hts).
  pose proof (worker_step_at i _ _ (goto_lookup i w (Got x) s1 Hw1)) as Hstep2.
  cbn [pc set_pc] in Hstep2.
  destruct x as [id func args kwargs|].
  2: { exists 2. split; [lia|]. simpl. by rewrite Hstep1, Hstep2, goto_goto. }
  rewrite record_goto in Hstep2.
  assert (threads (snd (_execute_task_record id func args kwargs s1)) = threads s1) as Hts2.
  { unfold _execute_task_record, call. unfold_M.
    destruct (func args kwargs) as [v|e]; [done|].
    destruct (is_Exception e); [|done]. cbn. by destruct (print_exceptions s1). }
  destruct (_execute_task_record id func args kwargs s1) as [[[]|e] s2] eqn:Hrec;
    cbn [fst snd] in Hstep2, Hts2.
  2: { exists 2. split; [lia|]. simpl.
       rewrite Hstep1, Hstep2, goto_goto. apply unwind_try_except. }
  rewrite goto_goto in Hstep2.
  assert (threads s2 !! i = Some w) as Hw2 by (by rewrite Hts2).
  pose proof (worker_step_at i _ _ (goto_lookup i w (Marking id) s2 Hw2)) as Hstep3.
  cbn [pc set_pc] in Hstep3. rewrite task_done_goto in Hstep3.
  exists 3. split; [lia|]. simpl. rewrite Hstep1, Hstep2, Hstep3.
  destruct (tasks_task_done id s2) as [[[]|e] s3]; cbn [fst snd]; rewrite goto_goto.
  - done.
  - apply unwind_try_except.
Qed.

(** ** [close()] does return *)

Lemma goto_other i j p s : i ≠ j → threads (goto i p s) !! j = threads s !! j.
Proof. intros Hne. cbn. by rewrite list_lookup_alter_ne. Qed.

Lemma pc_at_goto i p s :
  is_Some (threads s !! i) → pc_at (goto i p s) i = p.
Proof. intros [w Hw]. unfold pc_at. by rewrite (goto_lookup i w p s Hw). Qed.

Lemma pc_at_goto_ne i j p s : i ≠ j → pc_at (goto i p s) j = pc_at s j.
Proof. intros Hne. unfold pc_at. by rewrite goto_other. Qed.

Lemma calm_goto i p s :
  calm s → rank p ≤ 4 → calm (goto i p s).
Proof.
  intros [HQ HT] Hp. split; [done|]. cbn.
  apply Forall_alter; [done|]. intros w _ _. unfold idle. cbn.
  destruct p as [|[]|?|?|]; simpl in *; try done; lia.
Qed.

(** A step of worker [i] among idle workers: the others stay where they
    are, worker [i] comes closer to its end. *)
Lemma calm_step i s :
  calm s →
  calm (worker_step i s)
  ∧ (∀ j, j ≠ i → pc_at (worker_step i s) j = pc_at s j)
  ∧ rank (pc_at (worker_step i s) i) ≤ pred (rank (pc_at s i))
  ∧ _workers (worker_step i s) = _workers s
  ∧ length (threads (worker_step i s)) = length (threads s).
Proof.
  intros Hcalm. pose proof Hcalm as [HQ HT].
  destruct (threads s !! i) as [w|] eqn:Hw.
  2: { unfold worker_step, pc_at. rewrite Hw. cbv beta iota. rewrite Hw.
       by split_and!. }
  assert (is_Some (threads s !! i)) as Hsome by (by eexists).
  pose proof (Forall_lookup_1 _ _ _ _ HT Hw) as Hidle. unfold idle in Hidle.
  assert (pc_at s i = pc w) as -> by (unfold pc_at; by rewrite Hw).
  rewrite (worker_step_at i w s Hw).
  destruct (pc w) as [|[id func args kwargs|]|id|r|] eqn:Hpc; try done.
  - unfold tasks_get, Queue_get.
    destruct (items (_tasks s)) as [|x rest] eqn:Hq.
    + assert (unwind Empty = Returned None) as -> by reflexivity.
      split_and!.
      * apply calm_goto; [|simpl; lia]. split; [|done]. cbn. by rewrite Hq.
      * intros j Hj. by rewrite pc_at_goto_ne.
      * rewrite pc_at_goto by done. simpl. lia.
      * done.
      * cbn. by rewrite length_alter.
    + apply Forall_cons in HQ as [-> HQ]. split_and!.
      * apply calm_goto; [|simpl; lia]. split; done.
      * intros j Hj. by rewrite pc_at_goto_ne.
      * rewrite pc_at_goto by done. simpl. lia.
      * done.
      * cbn. by rewrite length_alter.
  - split_and!.
    + apply calm_goto; [done|simpl; lia].
    + intros j Hj. by rewrite pc_at_goto_ne.
    + rewrite pc_at_goto by done. simpl. lia.
    + done.
    + cbn. by rewrite length_alter.
  - assert (rank (if run_breaks r w s then Dead else Fetching) ≤ pred (rank (Returned r))) as Hr.
    { destruct r as [[]|]; unfold run_breaks; simpl;
        destruct (keyboard_interrupted w || _run_event s); simpl; lia. }
    destruct (run_breaks r w s); split_and!;
      try (apply calm_goto; [done|simpl; lia]);
      try (intros j Hj; by rewrite pc_at_goto_ne);
      try (rewrite pc_at_goto by done; exact Hr);
      try done; cbn; by rewrite length_alter.
  - split_and!; try done. unfold pc_at. rewrite Hw, Hpc. simpl. lia.
Qed.

Lemma calm_rank i s : calm s → rank (pc_at s i) ≤ 4.
Proof.
  intros [_ HT]. unfold pc_at.
  destruct (threads s !! i) as [w|] eqn:Hw; [|simpl; lia].
  pose proof (Forall_lookup_1 _ _ _ _ HT Hw) as Hidle. unfold idle in Hidle.
  destruct (pc w) as [|[]|?|[[]|]|]; simpl; try done; lia.
Qed.

Lemma rank_0 p : rank p = 0 → p = Dead.
Proof. by destruct p as [|[]|?|[[]|]|]. Qed.

(** Four steps are enough for an idle worker to end. *)
Lemma calm_four_steps i s :
  calm s →
  calm (run_batch [i; i; i; i] s)
  ∧ pc_at (run_batch [i; i; i; i] s) i = Dead
  ∧ (∀ j, j ≠ i → pc_at (run_batch [i; i; i; i] s) j = pc_at s j)
  ∧ _workers (run_batch [i; i; i; i] s) = _workers s
  ∧ length (threads (run_batch [i; i; i; i] s)) = length (threads s).
Proof.
  intros H0. pose proof (calm_rank i s H0) as Hr0. unfold run_batch. simpl.
  destruct (calm_step i s H0) as (H1 & Ho1 & Hr1 & Hw1 & Hl1).
  destruct (calm_step i _ H1) as (H2 & Ho2 & Hr2 & Hw2 & Hl2).
  destruct (calm_step i _ H2) as (H3 & Ho3 & Hr3 & Hw3 & Hl3).
  destruct (calm_step i _ H3) as (H4 & Ho4 & Hr4 & Hw4 & Hl4).
  split_and!; [done| |..].
  - apply rank_0. lia.
  - intros j Hj. by rewrite Ho4, Ho3, Ho2, Ho1.
  - congruence.
  - congruence.
Qed.

Lemma run_batch_app b1 b2 s : run_batch (b1 ++ b2) s = run_batch b2 (run_batch b1 s).
Proof. unfold run_batch. apply foldl_app. Qed.

Lemma calm_rounds (l : list nat) s :
  calm s →
  calm (run_batch (l ≫= λ i, [i; i; i; i]) s)
  ∧ (∀ j, j ∈ l ∨ pc_at s j = Dead → pc_at (run_batch (l ≫= λ i, [i; i; i; i]) s) j = Dead)
  ∧ _workers (run_batch (l ≫= λ i, [i; i; i; i]) s) = _workers s
  ∧ length (threads (run_batch (l ≫= λ i, [i; i; i; i]) s)) = length (threads s).
Proof.
  revert s. induction l as [|i l IH]; intros s Hcalm.
  - split_and!; try done. intros j [Hj|Hj]; [by apply elem_of_nil in Hj|done].
  - rewrite bind_cons, run_batch_app.
    destruct (calm_four_steps i s Hcalm) as (H1 & Hi & Ho & Hw & Hl).
    destruct (IH _ H1) as (H2 & Hdead & Hw2 & Hl2).
    split_and!; [done| |congruence..].
    intros j Hj. apply Hdead.
    destruct (decide (j = i)) as [->|Hne]; [by right|].
    destruct Hj as [Hj|Hj].
    + apply elem_of_cons in Hj as [?|?]; [done|by left].
    + right. by rewrite Ho.
Qed.

Lemma all_dead_is_alive s l :
  all_dead s → existsb (worker_is_alive (threads s)) l = false.
Proof.
  intros Hdead. induction l as [|i l IH]; [done|]. simpl. rewrite IH, orb_false_r.
  unfold worker_is_alive. destruct (threads s !! i) as [w|] eqn:Hw; [|done].
  exact (Forall_lookup_1 _ _ _ _ Hdead Hw).
Qed.

Lemma drain_ready sch s :
  unfinished_tasks (_tasks s) = 0 → drain sch s = Fin (Ok tt) s sch.
Proof.
  intros HU. unfold drain.
  assert (Queue_joinable (_tasks s) = true) as Hc by (by apply bool_decide_eq_true).
  destruct sch; simpl; by rewrite Hc.
Qed.

(** With nothing unfinished the workers hold nothing and the queue is
    empty. *)
Lemma Inv_drained_calm s : Inv s → unfinished_tasks (_tasks s) = 0 → calm s.
Proof.
  intros (_ & _ & []) HU. rewrite HU in *.
  assert (items (_tasks s) = [] ∧ in_flight s = [] ∧ marking s = []) as (HQ & HH & HK).
  { split_and!; apply length_zero_iff_nil; lia. }
  split; [by rewrite HQ|].
  apply Forall_forall. intros w Hw.
  apply list_elem_of_split in Hw as (l1 & l2 & Hts).
  unfold in_flight, marking in *.
  rewrite Hts, bind_app, bind_cons in HH. rewrite Hts, bind_app, bind_cons in HK.
  apply app_eq_nil in HH as [_ [HH _]%app_eq_nil].
  apply app_eq_nil in HK as [_ [HK _]%app_eq_nil].
  unfold idle, held, marked in *. by destruct (pc w) as [|[]|?|?|].
Qed.

(** From a state with nothing unfinished and the workers not yet
    discarded, [close()] returns when each worker is given four steps
    after the first sentinel is put. *)
Theorem close_can_return s :
  Inv s → _workers s ≠ None → unfinished_tasks (_tasks s) = 0 →
  ∃ s' sch', close false [[]; []; round_robin (length (threads s))] s = Fin (Ok tt) s' sch'.
Proof.
  intros HInv Hws HU.
  pose proof (Inv_drained_calm s HInv HU) as Hcalm.
  destruct HInv as (_ & [?|Hl] & _); [done|].
  unfold close, mbind, B_bind. rewrite drain_ready by done.
  cbn [yield run_batch foldl]. cbn [close_loop].
  rewrite is_alive_run, Hl.
  destruct (existsb _ _) eqn:Halive; [|by eexists _, _].
  cbn [run_batch foldl].
  set (s2 := snd (tasks_put _CYANIDE s)).
  assert (tasks_put _CYANIDE s = (Ok tt, s2)) as -> by done.
  assert (calm s2) as Hcalm2.
  { destruct Hcalm as [HQ HT]. split; [|done]. cbn. apply Forall_app. split; [done|].
    by repeat constructor. }
  destruct (calm_rounds (seq 0 (length (threads s))) s2 Hcalm2) as (_ & Hdead & Hw3 & Hl3).
  fold (round_robin (length (threads s))) in *.
  set (s3 := run_batch (round_robin (length (threads s))) s2) in *.
  assert (all_dead s3) as Hall.
  { apply Forall_lookup. intros j w Hw.
    assert (pc_at s3 j = Dead) as Hj.
    { apply Hdead. left. apply elem_of_seq. apply lookup_lt_Some in Hw.
      rewrite Hl3 in Hw. change (threads s2) with (threads s) in Hw. lia. }
    unfold pc_at in Hj. rewrite Hw in Hj. unfold Thread_is_alive. by rewrite Hj. }
  cbn [close_loop]. rewrite is_alive_run, Hw3.
  change (_workers s2) with (_workers s). rewrite Hl.
  rewrite all_dead_is_alive by done. by eexists _, _.
Qed.

(** * Further properties of the executor *)

(** ** What a worker's step leaves alone *)

Lemma alter_fmap_same {A C} (f : A → A) (g : A → C) (ts : list A) i :
  (∀ w, g (f w) = g w) → g <$> alter f i ts = g <$> ts.
Proof.
  intros Hfg. revert i. induction ts as [|w ts IH]; intros [|i]; try done.
  - cbn. by rewrite Hfg.
  - change (alter f (S i) (w :: ts)) with (w :: alter f i ts).
    by rewrite !fmap_cons, IH.
Qed.

Lemma flags_goto i p s' s : threads s' = threads s → flags (goto i p s') = flags s.
Proof. intros Hts. unfold flags. cbn. rewrite Hts. by apply alter_fmap_same. Qed.

Lemma puts_task_done h id : puts (h ++ [A_task_done id]) = puts h.
Proof. unfold puts. rewrite omap_app. simpl. by rewrite app_nil_r. Qed.

Lemma puts_put h x : puts (h ++ [A_put x]) = puts h ++ [x].
Proof. unfold puts. by rewrite omap_app. Qed.

Lemma dones_put h x : dones (h ++ [A_put x]) = dones h.
Proof. unfold dones. rewrite omap_app. simpl. by rewrite app_nil_r. Qed.

(** A worker never touches the stop signal, the [print_exceptions]
    setting, [_workers], the id generator or the interrupt flags, and it
    puts nothing on the queue. *)
Lemma worker_step_frame i s :
  _run_event (worker_step i s) = _run_event s
  ∧ print_exceptions (worker_step i s) = print_exceptions s
  ∧ _workers (worker_step i s) = _workers s
  ∧ _id_creator (worker_step i s) = _id_creator s
  ∧ puts (history (worker_step i s)) = puts (history s)
  ∧ flags (worker_step i s) = flags s.
Proof.
  unfold worker_step.
  destruct (threads s !! i) as [w|]; [|done].
  destruct (pc w) as [|[id func args kwargs|]|id|r|]; try done.
  - unfold tasks_get. destruct (Queue_get (_tasks s)) as [[x|e] q];
      split_and!; try done; by apply flags_goto.
  - unfold _execute_task_record, call. unfold_M.
    destruct (func args kwargs) as [v|e].
    { split_and!; try done; by apply flags_goto. }
    destruct (is_Exception e).
    2: { split_and!; try done; by apply flags_goto. }
    cbn. destruct (print_exceptions s) eqn:Hpe; cbn; rewrite ?Hpe;
      split_and!; try done; by apply flags_goto.
  - split_and!; try done; by apply flags_goto.
  - unfold tasks_task_done. destruct (Queue_task_done (_tasks s)) as [[[]|e] q].
    + split_and!; try done; [|by apply flags_goto]. cbn. apply puts_task_done.
    + split_and!; try done; by apply flags_goto.
  - destruct (run_breaks r w s); split_and!; try done; by apply flags_goto.
Qed.

Lemma same_refl {A} (f : system → A) s : same f s s.
Proof. done. Qed.

Lemma same_trans {A} (f : system → A) s1 s2 s3 :
  same f s1 s2 → same f s2 s3 → same f s1 s3.
Proof. unfold same. congruence. Qed.

(** ** The stop signal is never set *)

Local Ltac solve_same :=
  first [ exact (same_refl _) | exact (same_trans _)
        | by (intros; apply worker_step_frame)
        | by (unfold M_keeps, same; intros) ].

Lemma run_script_run_event cs : keeps (same _run_event) (run_script cs).
Proof. apply keeps_run_script; solve_same. Qed.

(** X1. No run of the executor ever sets the stop event: [stop()], the
    only code that would, raises before it does.  In every state the
    executor can be found in, and after any steps of the workers from
    there, [_run_event] is clear, so the loop of [run] never breaks on
    [run_event.is_set()]. *)
Theorem stop_signal_never_set (s : system) (b : list nat) :
  reachable s →
  _run_event (run_batch b s) = false
  ∧ ∀ r w, run_breaks r w (run_batch b s) = negb (truthy r) || keyboard_interrupted w.
Proof.
  intros (size & timeout & pe & cs & sch & sch' & Hrun).
  pose proof (run_script_run_event cs sch (__init__ size timeout pe)) as Hs.
  rewrite Hrun in Hs. unfold same in Hs. simpl in Hs.
  assert (_run_event (run_batch b s) = false) as Hb.
  { rewrite <- Hs. apply (run_batch_keeps (same _run_event)); solve_same. }
  split; [done|]. intros r w. unfold run_breaks. rewrite Hb. by rewrite orb_false_r.
Qed.

Lemma stop_signal_never_set_witness :
  _run_event (run_batch [0; 1] drained3) = false
  ∧ ∀ r w, run_breaks r w (run_batch [0; 1] drained3)
           = negb (truthy r) || keyboard_interrupted w.
Proof.
  apply (stop_signal_never_set drained3 [0; 1]).
  exists 2, 100, false, (batch3 ++ [c_drain]), sched3, [].
  vm_compute. reflexivity.
Defined.

(** ** [is_alive] before [close()] *)

(** X2. As long as the workers have not been discarded, [is_alive]
    raises nothing, changes nothing, and answers [True] exactly when some
    thread the executor started is still running. *)
Theorem is_alive_reflects_threads (s : system) :
  reachable s → _workers s ≠ None →
  ∃ b, is_alive s = (Ok b, s)
       ∧ (b = true ↔ ∃ w, w ∈ threads s ∧ Thread_is_alive w = true).
Proof.
  intros (_ & Hws & _)%reachable_Inv Hsome.
  destruct Hws as [?|Hl]; [done|].
  rewrite is_alive_run, Hl. eexists. split; [done|].
  rewrite existsb_exists. split.
  - intros (i & _ & Hi). unfold worker_is_alive in Hi.
    destruct (threads s !! i) as [w|] eqn:Hw; [|done].
    exists w. split; [|done]. by eapply list_elem_of_lookup_2.
  - intros (w & Hw & Halive). apply list_elem_of_lookup in Hw as [i Hi].
    exists i. split.
    + apply list_elem_of_In, elem_of_seq. apply lookup_lt_Some in Hi. lia.
    + unfold worker_is_alive. by rewrite Hi.
Qed.

Lemma is_alive_reflects_threads_witness :
  ∃ b, is_alive drained3 = (Ok b, drained3)
       ∧ (b = true ↔ ∃ w, w ∈ threads drained3 ∧ Thread_is_alive w = true).
Proof.
  apply (is_alive_reflects_threads drained3).
  - exists 2, 100, false, (batch3 ++ [c_drain]), sched3, [].
    vm_compute. reflexivity.
  - vm_compute. discriminate.
Defined.

(** ** [drain()] *)

Lemma await_run cond sch s r s' sch' :
  await cond sch s = Fin r s' sch' →
  ∃ bs, sch = bs ++ sch' ∧ s' = run_batch (concat bs) s.
Proof.
  revert s. induction sch as [|b sch IH]; intros s; simpl.
  - destruct (cond s); [|done]. intros [= <- <- <-]. by exists [].
  - destruct (cond s).
    + intros [= <- <- <-]. by exists [].
    + intros (bs & -> & ->)%IH. exists (b :: bs). split; [done|].
      simpl. by rewrite run_batch_app.
Qed.

(** X3. [drain()] never raises and does nothing itself: when it returns,
    the counter is at zero and the state is the one the workers' steps
    have produced; a second [drain()] right after returns at once, in the
    same state and without waiting for any worker. *)
Theorem drain_again_returns_at_once
    (sch sch' : schedule) (s s' : system) (r : result unit) :
  drain sch s = Fin r s' sch' →
  r = Ok tt
  ∧ unfinished_tasks (_tasks s') = 0
  ∧ (∃ bs, sch = bs ++ sch' ∧ s' = run_batch (concat bs) s)
  ∧ drain sch' s' = Fin (Ok tt) s' sch'.
Proof.
  intros Hdrain.
  destruct (await_Fin _ _ _ _ _ _ Hdrain) as [-> HU%bool_decide_eq_true].
  split_and!; [done|done| |by apply drain_ready].
  by eapply await_run.
Qed.

Lemma drain_again_returns_at_once_witness :
  Ok tt = Ok tt
  ∧ unfinished_tasks (_tasks drained3) = 0
  ∧ (∃ bs, [[0; 1; 1; 1; 1; 1; 1; 1; 0; 0]] = bs ++ []
           ∧ drained3 = run_batch (concat bs) submitted3)
  ∧ drain [] drained3 = Fin (Ok tt) drained3 [].
Proof.
  apply (drain_again_returns_at_once [[0; 1; 1; 1; 1; 1; 1; 1; 0; 0]] [] submitted3 drained3).
  vm_compute. reflexivity.
Defined.

(** ** [close()] on a closed executor *)

Lemma close_without_workers (sch : schedule) (s : system) :
  _workers s = None →
  (∃ s', close false sch s = Blocked s')
  ∨ (∃ s' sch', close false sch s
                = Fin (Raise (TypeError "'NoneType' object is not iterable")) s' sch'
                ∧ _workers s' = None).
Proof.
  intros Hnone. unfold close, mbind, B_bind.
  assert (keeps (same _workers) drain) as Hd.
  { apply keeps_drain; solve_same. }
  assert (keeps (same _workers) yield) as Hy.
  { apply keeps_yield; solve_same. }
  specialize (Hd sch s).
  destruct (drain sch s) as [[[]|e] s1 sch1|s1] eqn:Hdrain.
  - specialize (Hy sch1 s1). unfold same in Hd, Hy. simpl in Hd.
    destruct (yield sch1 s1) as [[[]|e] s2 sch2|s2] eqn:Hyield; simpl in Hy.
    + right. exists s2, sch2.
      assert (_workers s2 = None) as H2 by congruence.
      destruct sch2 as [|b1 [|b2 sch2]]; simpl; rewrite is_alive_run, H2; done.
    + destruct sch1; simpl in Hyield; done.
    + destruct sch1; simpl in Hyield; done.
  - by apply await_Fin in Hdrain as [? _].
  - left. by eexists.
Qed.

(** X4. [close()] is not repeatable: on an executor whose workers have
    been discarded it never returns normally.  It waits in [drain()], and
    if that returns, the test of [is_alive] raises [TypeError]. *)
Theorem close_again_never_returns (sch : schedule) (s : system) :
  _workers s = None →
  (∃ s', close false sch s = Blocked s')
  ∨ (∃ s' sch', close false sch s
                = Fin (Raise (TypeError "'NoneType' object is not iterable")) s' sch'
                ∧ _workers s' = None).
Proof. apply close_without_workers. Qed.

Lemma close_again_never_returns_witness :
  (∃ s', close false [[]] closed1 = Blocked s')
  ∨ (∃ s' sch', close false [[]] closed1
                = Fin (Raise (TypeError "'NoneType' object is not iterable")) s' sch'
                ∧ _workers s' = None).
Proof. apply (close_again_never_returns [[]] closed1). reflexivity. Defined.

(** X5. A [with] block that leaves the executor closed (it called
    [close()] or [terminate()] itself) never ends normally: whatever the
    block returned or raised, the statement hangs or raises the
    [TypeError] of the second [close()]. *)
Theorem scope_on_closed_executor_fails
    {A : Type} (block : system → B A) (sch0 sch : schedule) (s0 s : system) (r : result A) :
  block s0 sch0 s0 = Fin r s sch →
  _workers s = None →
  (∃ s', with_stmt block sch0 s0 = Blocked s')
  ∨ (∃ s' sch', with_stmt block sch0 s0
                = Fin (Raise (TypeError "'NoneType' object is not iterable")) s' sch').
Proof.
  intros Hblock Hnone. rewrite with_stmt_run, Hblock.
  destruct (close_without_workers sch s Hnone) as [(s' & ->)|(s' & sch' & -> & _)].
  - left. by eexists.
  - right. by eexists _, _.
Qed.

Lemma scope_on_closed_executor_fails_witness :
  (∃ s', with_stmt (λ _, close false) sched_close1 (__init__ 1 100 false) = Blocked s')
  ∨ (∃ s' sch', with_stmt (λ _, close false) sched_close1 (__init__ 1 100 false)
                = Fin (Raise (TypeError "'NoneType' object is not iterable")) s' sch').
Proof.
  apply (scope_on_closed_executor_fails (λ _, close false)
           sched_close1 [] (__init__ 1 100 false) closed1 (Ok tt)).
  - vm_compute. reflexivity.
  - reflexivity.
Defined.

(** ** When [drain()] never returns *)

(** A property of the state that keeps the counter off zero and that the
    workers' steps keep: [drain()] waits for ever. *)
Lemma drain_blocked_by (P : system → Prop) :
  (∀ s, P s → unfinished_tasks (_tasks s) ≠ 0) →
  (∀ i s, P s → P (worker_step i s)) →
  ∀ sch s, P s → ∃ s', drain sch s = Blocked s'.
Proof.
  intros Hoff Hstep sch. unfold drain.
  assert (∀ b s, P s → P (run_batch b s)) as Hbatch.
  { intros b. unfold run_batch. induction b as [|i b IH]; intros s HP; [done|].
    simpl. by apply IH, Hstep. }
  induction sch as [|b sch IH]; intros s HP; simpl.
  - assert (Queue_joinable (_tasks s) = false) as ->.
    { apply bool_decide_eq_false. by apply Hoff. }
    by eexists.
  - assert (Queue_joinable (_tasks s) = false) as ->.
    { apply bool_decide_eq_false. by apply Hoff. }
    by apply IH, Hbatch.
Qed.

(** X6. Once no worker thread is running (after [close()], or after
    every worker has timed out on an empty queue), a task that is submitted
    is accepted, is never executed, and [drain()] waits for it for ever. *)
Theorem submit_without_workers_hangs_drain
    (s : system) (func : callable) (args : list pyobj) (kwargs : list (string * pyobj))
    (sch : schedule) :
  all_dead s →
  fst (submit func args kwargs s) = Ok tt
  ∧ (∀ b, run_batch b (snd (submit func args kwargs s)) = snd (submit func args kwargs s))
  ∧ drain sch (snd (submit func args kwargs s)) = Blocked (snd (submit func args kwargs s)).
Proof.
  intros Hdead. rewrite submit_run. cbn [fst snd].
  set (s' := set_history _ _).
  assert (all_dead s') as Hdead' by done.
  assert (∀ b, run_batch b s' = s') as Hb by (intros b; by apply dead_run_batch).
  split_and!; [done|done|].
  unfold drain. induction sch as [|b sch IH]; simpl; [done|].
  by rewrite Hb.
Qed.

Lemma submit_without_workers_hangs_drain_witness :
  fst (submit ok7 [] [] (run_batch [0; 0] (__init__ 1 100 false))) = Ok tt
  ∧ (∀ b, run_batch b (snd (submit ok7 [] [] (run_batch [0; 0] (__init__ 1 100 false))))
          = snd (submit ok7 [] [] (run_batch [0; 0] (__init__ 1 100 false))))
  ∧ drain [[0; 0; 0]] (snd (submit ok7 [] [] (run_batch [0; 0] (__init__ 1 100 false))))
    = Blocked (snd (submit ok7 [] [] (run_batch [0; 0] (__init__ 1 100 false)))).
Proof.
  apply (submit_without_workers_hangs_drain (run_batch [0; 0] (__init__ 1 100 false))).
  repeat constructor.
Defined.

(** *** After a sentinel *)

Lemma Inv_sentinels_counted s :
  Inv s → length (sentinels (puts (history s))) ≤ unfinished_tasks (_tasks s).
Proof.
  intros (_ & _ & []).
  assert (NoDup (dones (history s))) as Hnd.
  { apply NoDup_app in ledger_NoDup0 as (_ & _ & H1).
    apply NoDup_app in H1 as (_ & _ & H2).
    by apply NoDup_app in H2 as (_ & _ & H3). }
  assert (∀ id, id ∈ dones (history s) → id < _id_creator s) as Hlt.
  { intros id Hid. apply ledger_bound0. rewrite !elem_of_app. auto. }
  pose proof (NoDup_below_length _ _ Hnd Hlt) as Hlen.
  pose proof (entries_split (puts (history s))) as Hsplit.
  rewrite ledger_put0, length_seq in Hsplit. lia.
Qed.

(** X7. A sentinel is never marked done, so once [close()] has put one
    on the queue [drain()] never returns again, whatever the workers do:
    a later [drain()], a second [close()] or the exit of a [with] block
    after an explicit [close()] waits for ever. *)
Theorem drain_after_sentinel_hangs (s : system) (sch : schedule) :
  reachable s →
  sentinels (puts (history s)) ≠ [] →
  (∃ s', drain sch s = Blocked s')
  ∧ (∃ s', close false sch s = Blocked s').
Proof.
  intros HInv%reachable_Inv Hsent.
  assert (∃ s', drain sch s = Blocked s') as (s' & Hdrain).
  { apply (drain_blocked_by (λ s, Inv s ∧ sentinels (puts (history s)) ≠ [])); [| |done].
    - intros s0 [HI Hs] HU. pose proof (Inv_sentinels_counted s0 HI) as Hle.
      rewrite HU in Hle. apply Hs, length_zero_iff_nil. lia.
    - intros i s0 [HI Hs]. split; [by apply worker_step_Inv|].
      destruct (worker_step_frame i s0) as (_ & _ & _ & _ & -> & _). done. }
  split; [by eexists|].
  exists s'. unfold close, mbind, B_bind. by rewrite Hdrain.
Qed.

Lemma drain_after_sentinel_hangs_witness :
  (∃ s', drain [[0]; [0]] closed1 = Blocked s')
  ∧ (∃ s', close false [[0]; [0]] closed1 = Blocked s').
Proof.
  apply (drain_after_sentinel_hangs closed1 [[0]; [0]]).
  - exists 1, 100, false, [c_close], ([] :: sched_close1), [].
    vm_compute. reflexivity.
  - vm_compute. discriminate.
Defined.

(** *** After an error that [except Exception] lets through *)

Lemma outstanding_goto i w p s s' :
  threads s !! i = Some w → threads s' = threads s →
  outstanding (goto i p s') + (length (held w) + length (marked w))
  = length (items (_tasks s')) + (length (in_flight s) + length (marking s))
    + (length (held (set_pc p w)) + length (marked (set_pc p w))).
Proof.
  intros Hw Hts.
  destruct (goto_ledger i w p s s' Hw Hts) as (hs & ms & Hh & Hm & Hh' & Hm' & _).
  unfold outstanding. cbn [_tasks goto set_threads].
  rewrite Hh', Hm', Hh, Hm, !length_app. lia.
Qed.

(** What the counter has above the outstanding entries, it keeps. *)
Lemma worker_step_excess i s :
  Inv s →
  unfinished_tasks (_tasks s) + outstanding (worker_step i s)
  ≤ unfinished_tasks (_tasks (worker_step i s)) + outstanding s.
Proof.
  intros HInv.
  assert (outstanding s ≤ unfinished_tasks (_tasks s)) as Hout.
  { by destruct HInv as (_ & _ & []). }
  clear HInv.
  destruct (threads s !! i) as [w|] eqn:Hw.
  2: { unfold worker_step. by rewrite Hw. }
  rewrite (worker_step_at i w s Hw).
  assert (outstanding s
          = length (items (_tasks s)) + length (in_flight s) + length (marking s)) as HO by done.
  set (O := outstanding s) in *.
  destruct (pc w) as [|[id func args kwargs|]|id|r|] eqn:Hpc.
  - unfold tasks_get, Queue_get. destruct (items (_tasks s)) as [|x rest] eqn:Hq.
    + pose proof (outstanding_goto i w (unwind Empty) s (set_tasks (_tasks s) s) Hw eq_refl) as Ho.
      unfold held, marked in Ho. rewrite Hpc in Ho.
      destruct (unwind_cases Empty) as [Hu | Hu]; rewrite Hu in *; cbn in Ho |- *;
        rewrite Hq in Ho; simpl in *; lia.
    + match goal with |- context [goto i ?p ?s1] =>
        pose proof (outstanding_goto i w p s s1 Hw eq_refl) as Ho end.
      unfold held, marked in Ho. rewrite Hpc in Ho. cbn in Ho |- *. simpl in HO. lia.
  - unfold _execute_task_record, call. unfold_M.
    destruct (func args kwargs) as [v|e].
    { match goal with |- context [goto i ?p ?s1] =>
        pose proof (outstanding_goto i w p s s1 Hw eq_refl) as Ho end.
      unfold held, marked in Ho. rewrite Hpc in Ho. cbn in Ho |- *. lia. }
    destruct (is_Exception e).
    + cbn. destruct (print_exceptions s); cbn;
        match goal with |- context [goto i ?p ?s1] =>
          pose proof (outstanding_goto i w p s s1 Hw eq_refl) as Ho end;
        unfold held, marked in Ho; rewrite Hpc in Ho; cbn in Ho |- *; lia.
    + match goal with |- context [goto i ?p ?s1] =>
        pose proof (outstanding_goto i w p s s1 Hw eq_refl) as Ho end.
      unfold held, marked in Ho. rewrite Hpc in Ho.
      destruct (unwind_cases e) as [Hu | Hu]; rewrite Hu in *; cbn in Ho |- *; lia.
  - match goal with |- context [goto i ?p ?s1] =>
      pose proof (outstanding_goto i w p s s1 Hw eq_refl) as Ho end.
    unfold held, marked in Ho. rewrite Hpc in Ho. cbn in Ho |- *. lia.
  - assert (0 < unfinished_tasks (_tasks s)) as Hpos.
    { pose proof (outstanding_goto i w Dead s s Hw eq_refl) as Ho.
      unfold held, marked in Ho. rewrite Hpc in Ho. cbn in Ho. lia. }
    unfold tasks_task_done, Queue_task_done.
    destruct (unfinished_tasks (_tasks s)) as [|U'] eqn:HU; [lia|].
    match goal with |- context [goto i ?p ?s1] =>
      pose proof (outstanding_goto i w p s s1 Hw eq_refl) as Ho end.
    unfold held, marked in Ho. rewrite Hpc in Ho. cbn in Ho |- *. lia.
  - destruct (run_breaks r w s);
      match goal with |- context [goto i ?p ?s1] =>
        pose proof (outstanding_goto i w p s s1 Hw eq_refl) as Ho end;
      unfold held, marked in Ho; rewrite Hpc in Ho; cbn in Ho |- *; lia.
  - lia.
Qed.

Lemma base_only_not_Empty e : is_Exception e = false → is_Empty e = false.
Proof.
  destruct e as [c m]. unfold is_Exception, is_Empty. simpl.
  intros H%negb_false_iff%bool_decide_eq_true.
  apply bool_decide_eq_false. unfold base_only in H.
  rewrite !elem_of_cons in H.
  destruct H as [->|[->|[->|[->|H]]]]; try done. by apply elem_of_nil in H.
Qed.

Lemma record_run id func args kwargs s :
  _execute_task_record id func args kwargs s
  = match func args kwargs with
    | Ok v => (Ok tt, set_returns (<[id := v]> (_returns s)) s)
    | Raise e =>
        if is_Exception e then
          (Ok tt,
           if print_exceptions s
           then set_stderr (stderr s ++ [e]) (set_exceptions (<[id := e]> (_exceptions s)) s)
           else set_exceptions (<[id := e]> (_exceptions s)) s)
        else (Raise e, s)
    end.
Proof.
  unfold _execute_task_record, call. unfold_M.
  destruct (func args kwargs) as [v|e]; [done|].
  destruct (is_Exception e); [|done]. cbn. by destruct (print_exceptions s).
Qed.

Lemma stuck_kept i s : Inv s ∧ stuck s → Inv (worker_step i s) ∧ stuck (worker_step i s).
Proof.
  intros [HInv Hstuck]. split; [by apply worker_step_Inv|].
  pose proof (worker_step_excess i s HInv). unfold stuck in *. lia.
Qed.

(** X8. An error that [except Exception] does not catch
    ([KeyboardInterrupt], [SystemExit], [GeneratorExit]) is not contained:
    the worker that ran the task is over, nothing is stored for the task,
    [task_done()] is not called, and from then on [drain()] never returns,
    whatever the other workers do. *)
Theorem escaped_error_ends_worker_and_blocks_drain
    (i : nat) (w : ThreadedWorker) (id : nat) (func : callable)
    (args : list pyobj) (kwargs : list (string * pyobj)) (e : pyexc) (s : system) :
  Inv s →
  threads s !! i = Some w →
  pc w = Got (Task id func args kwargs) →
  func args kwargs = Raise e →
  is_Exception e = false →
  pc_at (worker_step i s) i = Dead
  ∧ _returns (worker_step i s) = _returns s
  ∧ _exceptions (worker_step i s) = _exceptions s
  ∧ unfinished_tasks (_tasks (worker_step i s)) = unfinished_tasks (_tasks s)
  ∧ ∀ sch, ∃ s', drain sch (worker_step i s) = Blocked s'.
Proof.
  intros HInv Hw Hpc Hf He.
  assert (worker_step i s = goto i Dead s) as Hstep.
  { rewrite (worker_step_at i w s Hw), Hpc, record_run, Hf, He.
    unfold unwind. by rewrite base_only_not_Empty. }
  rewrite Hstep. split_and!; try done.
  - apply pc_at_goto. by eexists.
  - intros sch. apply (drain_blocked_by (λ s, Inv s ∧ stuck s)).
    + intros s0 [_ Hs] HU. unfold stuck in Hs. lia.
    + apply stuck_kept.
    + split; [rewrite <- Hstep; by apply worker_step_Inv|].
      pose proof (outstanding_goto i w Dead s s Hw eq_refl) as Ho.
      unfold held, marked in Ho. rewrite Hpc in Ho. cbn in Ho.
      destruct HInv as (_ & _ & []). unfold stuck.
      change (_tasks (goto i Dead s)) with (_tasks s). lia.
Qed.

Lemma escaped_error_ends_worker_and_blocks_drain_witness :
  pc_at (worker_step 0 taken_interrupted) 0 = Dead
  ∧ _returns (worker_step 0 taken_interrupted) = _returns taken_interrupted
  ∧ _exceptions (worker_step 0 taken_interrupted) = _exceptions taken_interrupted
  ∧ unfinished_tasks (_tasks (worker_step 0 taken_interrupted))
    = unfinished_tasks (_tasks taken_interrupted)
  ∧ ∀ sch, ∃ s', drain sch (worker_step 0 taken_interrupted) = Blocked s'.
Proof.
  apply (escaped_error_ends_worker_and_blocks_drain 0
           {| index := 0; keyboard_interrupted := false;
              pc := Got (Task 0 interrupted [] []) |}
           0 interrupted [] [] (Exc "KeyboardInterrupt" EmptyString) taken_interrupted).
  - apply run_batch_Inv.
    apply (submit_Inv interrupted [] [] (__init__ 1 100 false)), __init___Inv.
  - reflexivity.
  - reflexivity.
  - reflexivity.
  - reflexivity.
Defined.

(** ** A task's error is contained *)



(** ** First submitted, first served *)

Lemma fifo_goto i p s : fifo (goto i p s) ↔ fifo s.
Proof. done. Qed.

Lemma worker_step_fifo i s : fifo_kept s (worker_step i s).
Proof.
  intros Hfifo. unfold worker_step.
  destruct (threads s !! i) as [w|]; [|done].
  destruct (pc w) as [|[id func args kwargs|]|id|r|]; try done.
  - unfold tasks_get, Queue_get.
    destruct (items (_tasks s)) as [|x rest] eqn:Hq; apply fifo_goto.
    + destruct Hfifo as (k & Hk & Hids). exists k. cbn. by rewrite Hq in *.
    + destruct Hfifo as (k & Hk & Hids). rewrite Hq in Hids.
      destruct x as [id func args kwargs|]; simpl in Hids.
      * destruct k as [|k]; [done|]. simpl in Hids. injection Hids as _ Hrest.
        exists k. split; [cbn; lia|].
        transitivity (seq (S (_id_creator s - S k)) k); [exact Hrest|].
        cbn. f_equal. lia.
      * exists k. by cbn.
  - rewrite record_run. destruct (func args kwargs) as [v|e]; [by apply fifo_goto|].
    destruct (is_Exception e); [|by apply fifo_goto].
    destruct (print_exceptions s); by apply fifo_goto.
  - unfold tasks_task_done, Queue_task_done.
    destruct (unfinished_tasks (_tasks s)); by apply fifo_goto.
  - destruct (run_breaks r w s); by apply fifo_goto.
Qed.

Lemma fifo_kept_refl s : fifo_kept s s.
Proof. by intros ?. Qed.

Lemma fifo_kept_trans s1 s2 s3 : fifo_kept s1 s2 → fifo_kept s2 s3 → fifo_kept s1 s3.
Proof. unfold fifo_kept. auto. Qed.

Lemma put_sentinel_fifo s : fifo_kept s (snd (tasks_put _CYANIDE s)).
Proof.
  intros (k & Hk & Hids). exists k. cbn. split; [done|].
  by rewrite task_ids_app, app_nil_r.
Qed.

Lemma submit_fifo func args kwargs : M_keeps fifo_kept (submit func args kwargs).
Proof.
  intros s (k & Hk & Hids). rewrite submit_run. exists (S k). split; [cbn; lia|].
  change (task_ids (items (_tasks s) ++ [Task (_id_creator s) func args kwargs])
          = seq (_id_creator s - k) (S k)).
  rewrite task_ids_app, Hids, seq_S.
  change (task_ids [Task (_id_creator s) func args kwargs]) with [_id_creator s].
  do 2 f_equal. lia.
Qed.

Lemma run_script_fifo cs : keeps fifo_kept (run_script cs).
Proof.
  apply keeps_run_script;
    first [ exact fifo_kept_refl | exact fifo_kept_trans | exact worker_step_fifo
          | exact put_sentinel_fifo | exact submit_fifo
          | by (intros i s H; exact H) ].
Qed.

(** X10. Tasks are served in the order of their submission: in every
    state of a run, also after any steps of the workers, the queue holds
    the ids of the [k] tasks submitted last, for some [k], in ascending
    order, so a task leaves the queue only after every task submitted
    before it. *)
Theorem queue_is_first_in_first_out (s : system) (b : list nat) :
  reachable s →
  ∃ k, k ≤ task_count s
       ∧ task_count (run_batch b s) = task_count s
       ∧ task_ids (items (_tasks (run_batch b s))) = seq (task_count s - k) k.
Proof.
  intros Hs. pose proof (reachable_Inv s Hs) as (Hcount & _).
  destruct Hs as (size & timeout & pe & cs & sch & sch' & Hrun).
  pose proof (run_script_fifo cs sch (__init__ size timeout pe)) as Hf.
  rewrite Hrun in Hf. simpl in Hf.
  assert (fifo (run_batch b s)) as (k & Hk & Hids).
  { apply (run_batch_keeps fifo_kept);
      [exact fifo_kept_refl | exact fifo_kept_trans | exact worker_step_fifo |].
    apply Hf. exists 0. by split. }
  assert (_id_creator (run_batch b s) = _id_creator s) as Hid.
  { apply (run_batch_keeps (same _id_creator)); solve_same. }
  assert (task_count (run_batch b s) = task_count s) as Htc.
  { apply (run_batch_keeps count_kept); [done| |exact worker_step_task_count].
    unfold count_kept. congruence. }
  rewrite Hid in Hk, Hids. exists k. rewrite Htc, Hcount. by split_and!.
Qed.

Lemma queue_is_first_in_first_out_witness :
  ∃ k, k ≤ task_count submitted3
       ∧ task_count (run_batch [0; 1] submitted3) = task_count submitted3
       ∧ task_ids (items (_tasks (run_batch [0; 1] submitted3)))
         = seq (task_count submitted3 - k) k.
Proof.
  apply (queue_is_first_in_first_out submitted3 [0; 1]).
  exists 2, 100, false, batch3, sched3, [[0; 1; 1; 1; 1; 1; 1; 1; 0; 0]].
  vm_compute. reflexivity.
Defined.

(** ** What is printed *)









Example printed1_stderr :
  stderr printed1 = [Exc "ValueError" "boom"] ∧ print_exceptions printed1 = true.
Proof. by vm_compute. Qed.

(** ** [close()] and [terminate()] wait for every task *)

Lemma worker_step_settled i s : settled_kept s (worker_step i s).
Proof.
  split; [apply worker_step_frame|].
  intros id0 Hset. unfold worker_step.
  destruct (threads s !! i) as [w|]; [|done].
  destruct (pc w) as [|[id func args kwargs|]|id|r|]; try done.
  - unfold tasks_get. by destruct (Queue_get (_tasks s)) as [[x|e] q].
  - rewrite record_run. unfold settled in *.
    destruct (func args kwargs) as [v|e].
    { cbn. rewrite lookup_insert_is_Some. destruct (decide (id = id0)); tauto. }
    destruct (is_Exception e); [|done].
    destruct (print_exceptions s); cbn; rewrite lookup_insert_is_Some;
      destruct (decide (id = id0)); tauto.
  - unfold tasks_task_done. by destruct (Queue_task_done (_tasks s)) as [[[]|e] q].
  - by destruct (run_breaks r w s).
Qed.

Lemma settled_kept_refl s : settled_kept s s.
Proof. by split. Qed.

Lemma settled_kept_trans s1 s2 s3 :
  settled_kept s1 s2 → settled_kept s2 s3 → settled_kept s1 s3.
Proof. intros [H1 H1'] [H2 H2']. split; [congruence|auto]. Qed.

Local Ltac solve_settled :=
  first [ exact settled_kept_refl | exact settled_kept_trans | exact worker_step_settled
        | by (intros; split) ].

(** Every id handed out is settled: then the two maps hold one outcome
    for each, and none for anything else. *)
Lemma Inv_all_settled s :
  Inv s → (∀ id, id < _id_creator s → settled s id) →
  size (_returns s) + size (_exceptions s) = task_count s
  ∧ ∀ id, id < task_count s →
      (is_Some (_returns s !! id) ∧ _exceptions s !! id = None)
      ∨ (_returns s !! id = None ∧ is_Some (_exceptions s !! id)).
Proof.
  intros (Hcount & _ & []) Hall. rewrite Hcount. split.
  - rewrite <- !size_dom, <- size_union.
    + replace (dom (_returns s) ∪ dom (_exceptions s)) with (set_seq 0 (_id_creator s) : gset nat).
      { apply size_set_seq. }
      apply set_eq. intros id. rewrite elem_of_set_seq, elem_of_union, !elem_of_dom.
      split; [intros [_ Hid]; by apply Hall | intros Hid; split; [lia|by apply ledger_keys0]].
    + intros id. rewrite !elem_of_dom. intros HR HE.
      apply ledger_disjoint0 in HR. rewrite HR in HE. by destruct HE.
  - intros id Hid. destruct (Hall id Hid) as [HR|HE].
    + left. split; [done|by apply ledger_disjoint0].
    + right. split; [|done]. apply eq_None_not_Some. intros HR.
      apply ledger_disjoint0 in HR. rewrite HR in HE. by destruct HE.
Qed.

Lemma close_settles_all raise_exec sch s s' sch' :
  Inv s → close raise_exec sch s = Fin (Ok tt) s' sch' →
  ∀ id, id < _id_creator s' → settled s' id.
Proof.
  intros HInv Hclose.
  assert (keeps settled_kept
            (yield;; close_loop;; yield;; atomic (modify (set_workers None)))) as Hrest.
  { repeat (apply (keeps_bind settled_kept settled_kept_trans); [|intros _]);
      first [ apply keeps_yield; solve_settled | apply keeps_close_loop; solve_settled | idtac ].
    apply keeps_atomic. by intros s0. }
  unfold close in Hclose. unfold mbind at 1, B_bind at 1 in Hclose.
  pose proof (drain_Inv sch s HInv) as HInv1.
  destruct (drain sch s) as [[[]|e] s1 sch1|] eqn:Hdrain; [|done..]. simpl in HInv1.
  apply await_Fin in Hdrain as [_ HU%bool_decide_eq_true].
  destruct (Inv_drained s1 HInv1 HU) as [_ Hone].
  specialize (Hrest sch1 s1). rewrite Hclose in Hrest. destruct Hrest as [HN Hkeep].
  intros id Hid. apply Hkeep. simpl in HN. rewrite HN in Hid.
  destruct HInv1 as (Hc & _). rewrite <- Hc in Hid.
  unfold settled. destruct (Hone id Hid) as [[? _]|[_ ?]]; auto.
Qed.

(** X12. [close()] returns only when every task submitted so far has its
    outcome: the two maps then hold one entry for each id handed out, in
    exactly one of them, and no worker is left to change them. *)
Theorem close_waits_for_every_task (sch sch' : schedule) (s s' : system) :
  reachable s →
  close false sch s = Fin (Ok tt) s' sch' →
  task_count s' = task_count s
  ∧ size (_returns s') + size (_exceptions s') = task_count s
  ∧ (∀ id, id < task_count s →
       (is_Some (_returns s' !! id) ∧ _exceptions s' !! id = None)
       ∨ (_returns s' !! id = None ∧ is_Some (_exceptions s' !! id)))
  ∧ ∀ b, run_batch b s' = s'.
Proof.
  intros HInv%reachable_Inv Hclose.
  pose proof (close_Inv false sch s HInv) as HInv'. rewrite Hclose in HInv'. simpl in HInv'.
  pose proof (close_settles_all _ _ _ _ _ HInv Hclose) as Hall.
  destruct (Inv_all_settled s' HInv' Hall) as [Hsize Hone].
  assert (task_count s' = task_count s) as Htc.
  { assert (keeps count_kept (close false)) as Hk.
    { apply keeps_close; first [exact worker_step_task_count | by intros ? | idtac].
      unfold count_kept. congruence. }
    specialize (Hk sch s). by rewrite Hclose in Hk. }
  rewrite <- Htc. split_and!; try done.
  destruct (close_returns _ _ _ _ _ HInv Hclose) as (s3 & _ & _ & Hdead & ->).
  intros b. by apply dead_run_batch.
Qed.

Lemma close_waits_for_every_task_witness :
  task_count closed2 = task_count submitted2
  ∧ size (_returns closed2) + size (_exceptions closed2) = task_count submitted2
  ∧ (∀ id, id < task_count submitted2 →
       (is_Some (_returns closed2 !! id) ∧ _exceptions closed2 !! id = None)
       ∨ (_returns closed2 !! id = None ∧ is_Some (_exceptions closed2 !! id)))
  ∧ ∀ b, run_batch b closed2 = closed2.
Proof.
  apply (close_waits_for_every_task sched_close2 [] submitted2 closed2).
  - exists 1, 100, false, [c_submit ok7 [] []; c_submit boom [] []], [], [].
    vm_compute. reflexivity.
  - vm_compute. reflexivity.
Defined.

(** *** [terminate()] *)

Lemma flags_stay_refl s : flags_stay s s.
Proof. by split. Qed.

Lemma flags_stay_trans s1 s2 s3 : flags_stay s1 s2 → flags_stay s2 s3 → flags_stay s1 s3.
Proof. intros [H1 H1'] [H2 H2']. split; [congruence|auto]. Qed.

Lemma worker_step_flags i s : flags_stay s (worker_step i s).
Proof.
  destruct (worker_step_frame i s) as (_ & _ & _ & _ & _ & Hf).
  unfold flags_stay. by rewrite Hf.
Qed.

Lemma flags_interrupt i s :
  flags (set_threads (alter (set_keyboard_interrupted true) i (threads s)) s)
  = alter (λ _, true) i (flags s).
Proof.
  unfold flags. cbn. generalize (threads s). intros ts. revert i.
  induction ts as [|w ts IH]; intros [|i]; try done.
  change (alter (set_keyboard_interrupted true) (S i) (w :: ts))
    with (w :: alter (set_keyboard_interrupted true) i ts).
  rewrite !fmap_cons. change (alter (λ _, true) (S i) (?x :: ?l)) with (x :: alter (λ _, true) i l).
  by rewrite IH.
Qed.

Lemma interrupt_flags i s :
  flags_stay s (set_threads (alter (set_keyboard_interrupted true) i (threads s)) s).
Proof.
  unfold flags_stay. rewrite flags_interrupt. split; [by rewrite length_alter|].
  intros j Hj. destruct (decide (i = j)) as [->|Hne].
  - by rewrite list_lookup_alter_eq, Hj.
  - by rewrite list_lookup_alter_ne.
Qed.

Local Ltac solve_flags :=
  first [ exact flags_stay_refl | exact flags_stay_trans | exact worker_step_flags
        | exact interrupt_flags | by (intros; apply flags_stay_refl) ].

Lemma B_bind_run {A C} (m : B A) (f : A → B C) sch s x s1 sch1 :
  m sch s = Fin (Ok x) s1 sch1 → (m ≫= f) sch s = f x sch1 s1.
Proof. intros Hm. unfold mbind, B_bind. by rewrite Hm. Qed.

Lemma for_each_cons {A} (l : list A) (body : A → B unit) x sch s sa scha :
  body x sch s = Fin (Ok tt) sa scha →
  for_each (x :: l) body sch s = for_each l body scha sa.
Proof. intros Hx. cbn [for_each]. unfold mbind, B_bind. by rewrite Hx. Qed.

Lemma interrupt_one i sch s :
  ∃ sa scha,
    yield sch s = Fin (Ok tt) sa scha
    ∧ (yield;;
       atomic (modify (λ s, set_threads (alter (set_keyboard_interrupted true) i (threads s)) s)))
        sch s
      = Fin (Ok tt) (set_threads (alter (set_keyboard_interrupted true) i (threads sa)) sa) scha.
Proof. destruct sch as [|b sch]; by eexists _, _. Qed.

(** The loop of [terminate]: every worker listed has its flag set. *)
Lemma interrupt_all (l : list nat) sch s :
  ∃ s1 sch1,
    for_each l (λ i,
      yield;;
      atomic (modify (λ s, set_threads (alter (set_keyboard_interrupted true) i (threads s)) s)))
      sch s = Fin (Ok tt) s1 sch1
    ∧ flags_stay s s1
    ∧ ∀ i, i ∈ l → i < length (flags s) → flags s1 !! i = Some true.
Proof.
  revert sch s. induction l as [|i l IH]; intros sch s.
  - exists s, sch. split_and!; [done|apply flags_stay_refl|].
    intros i Hi. by apply elem_of_nil in Hi.
  - destruct (interrupt_one i sch s) as (sa & scha & Hyield & Hbody).
    rewrite (for_each_cons l (λ i,
      yield;;
      atomic (modify (λ s, set_threads (alter (set_keyboard_interrupted true) i (threads s)) s)))
      i sch s _ _ Hbody).
    assert (keeps flags_stay yield) as Hy by (apply keeps_yield; solve_flags).
    specialize (Hy sch s). rewrite Hyield in Hy. simpl in Hy.
    set (sb := set_threads _ sa).
    pose proof (interrupt_flags i sa) as Hb. fold sb in Hb.
    destruct (IH scha sb) as (s1 & sch1 & Hrun & Hstay & Hset).
    exists s1, sch1. split; [done|].
    pose proof (flags_stay_trans _ _ _ Hy Hb) as Hsb.
    split; [by eapply flags_stay_trans|].
    intros j Hj Hlen. destruct (decide (j = i)) as [->|Hne].
    + apply Hstay. subst sb. rewrite flags_interrupt, list_lookup_alter_eq.
      destruct Hy as [Hl _]. rewrite <- Hl in Hlen.
      apply lookup_lt_is_Some in Hlen as [x ->]. done.
    + apply elem_of_cons in Hj as [?|Hj]; [done|]. apply Hset; [done|].
      destruct Hsb as [-> _]. done.
Qed.

(** X13. When [terminate()] returns, every worker has had its interrupt
    flag set, no worker thread is running, the workers are discarded, and
    every task submitted has its outcome in exactly one of the maps:
    [terminate()] cuts no task short, it waits in [drain()] like
    [close()]. *)
Theorem terminate_flags_all_and_closes (sch sch' : schedule) (s s' : system) :
  reachable s →
  terminate sch s = Fin (Ok tt) s' sch' →
  Forall (λ w, keyboard_interrupted w = true) (threads s')
  ∧ all_dead s'
  ∧ _workers s' = None
  ∧ size (_returns s') + size (_exceptions s') = task_count s'.
Proof.
  intros HInv%reachable_Inv Hterm. pose proof HInv as (_ & Hws & _).
  assert (∃ l, atomic iter_workers sch s = Fin (Ok l) s sch
               ∧ l = seq 0 (length (threads s))) as (l & Hiter & Hl).
  { unfold atomic, iter_workers. unfold_M. cbv beta.
    destruct Hws as [Hnone|Hsome].
    - exfalso. unfold terminate in Hterm.
      unfold mbind at 1, B_bind at 1, atomic at 1, iter_workers in Hterm.
      unfold_M. cbv beta in Hterm. by rewrite Hnone in Hterm.
    - rewrite Hsome. by eexists. }
  unfold terminate in Hterm. rewrite (B_bind_run _ _ _ _ _ _ _ Hiter) in Hterm.
  destruct (interrupt_all l sch s) as (s1 & sch1 & Hloop & Hstay1 & Hset).
  assert (keeps Inv_kept (for_each l (λ i,
      yield;;
      atomic (modify (λ s, set_threads (alter (set_keyboard_interrupted true) i (threads s)) s)))))
    as HkI.
  { apply keeps_for_each;
      [exact Inv_kept_refl | exact Inv_kept_trans |].
    intros i. apply (keeps_bind Inv_kept Inv_kept_trans); [|intros _].
    - apply keeps_yield; [exact Inv_kept_refl | exact Inv_kept_trans | exact worker_step_Inv].
    - apply keeps_atomic. intros s0. apply interrupt_Inv. }
  pose proof (HkI sch s HInv) as HInv1. rewrite Hloop in HInv1. simpl in HInv1.
  rewrite (B_bind_run _ _ _ _ _ _ _ Hloop) in Hterm.
  unfold mbind at 1, B_bind at 1 in Hterm.
  assert (keeps Inv_kept yield) as HyI.
  { apply keeps_yield; [exact Inv_kept_refl | exact Inv_kept_trans | exact worker_step_Inv]. }
  assert (keeps flags_stay yield) as Hyf by (apply keeps_yield; solve_flags).
  specialize (HyI sch1 s1 HInv1). specialize (Hyf sch1 s1).
  destruct (yield sch1 s1) as [[[]|e] s2 sch2|s2] eqn:Hyield; [|done..].
  simpl in HyI, Hyf.
  assert (keeps flags_stay (close false)) as Hcf by (apply keeps_close; solve_flags).
  specialize (Hcf sch2 s2). rewrite Hterm in Hcf. simpl in Hcf.
  pose proof (flags_stay_trans _ _ _ Hstay1 (flags_stay_trans _ _ _ Hyf Hcf)) as [Hlen Hkeep].
  destruct (close_returns _ _ _ _ _ HyI Hterm) as (s3 & _ & _ & Hdead & Hs').
  pose proof (close_Inv false sch2 s2 HyI) as HInv'. rewrite Hterm in HInv'. simpl in HInv'.
  pose proof (close_settles_all _ _ _ _ _ HyI Hterm) as Hall.
  destruct (Inv_all_settled s' HInv' Hall) as [Hsize _].
  split_and!; [|by rewrite Hs'|by rewrite Hs'|done].
  apply Forall_lookup. intros i w Hw.
  assert (flags s' !! i = Some true) as Hi.
  { destruct Hstay1 as [Hl1 _]. destruct Hyf as [Hl2 Hk2]. destruct Hcf as [Hl3 Hk3].
    apply Hk3, Hk2, Hset.
    - subst l. apply elem_of_seq. apply lookup_lt_Some in Hw.
      unfold flags in Hlen. rewrite !length_fmap in Hlen. lia.
    - apply lookup_lt_Some in Hw. unfold flags in *. rewrite !length_fmap in *. lia. }
  unfold flags in Hi. rewrite list_lookup_fmap, Hw in Hi. by injection Hi.
Qed.

Lemma terminate_flags_all_and_closes_witness :
  Forall (λ w, keyboard_interrupted w = true) (threads terminated1)
  ∧ all_dead terminated1
  ∧ _workers terminated1 = None
  ∧ size (_returns terminated1) + size (_exceptions terminated1) = task_count terminated1.
Proof.
  apply (terminate_flags_all_and_closes sched_terminate1 [] submitted1 terminated1).
  - exists 1, 100, false, [c_submit ok7 [] []], [], [].
    vm_compute. reflexivity.
  - vm_compute. reflexivity.
Defined.

(** ** Where the outcomes come from *)

Lemma put_outcomes_length s : Inv s → length (put_outcomes s) = _id_creator s.
Proof.
  intros (_ & _ & []). unfold put_outcomes.
  transitivity (length (task_ids (puts (history s)))).
  - generalize (puts (history s)). intros l.
    induction l as [|[id func args kwargs|] l IH]; simpl; [done|by f_equal|done].
  - by rewrite ledger_put0, length_seq.
Qed.

Lemma origin_goto i w p s s' :
  threads s !! i = Some w → threads s' = threads s →
  put_outcomes s' = put_outcomes s →
  (∀ id v, _returns s' !! id = Some v → put_outcomes s !! id = Some (Ok v)) →
  (∀ id e, _exceptions s' !! id = Some e →
     put_outcomes s !! id = Some (Raise e) ∧ is_Exception e = true) →
  (∀ x, x ∈ items (_tasks s') ++ held (set_pc p w) → x ∈ items (_tasks s) ++ held w) →
  origin s → origin (goto i p s').
Proof.
  intros Hw Hts Hlog HR HE Hheld (_ & _ & Hc).
  destruct (goto_ledger i w p s s' Hw Hts) as (hs & _ & Hin & _ & Hin' & _).
  unfold origin.
  change (put_outcomes (goto i p s')) with (put_outcomes s').
  change (_returns (goto i p s')) with (_returns s').
  change (_exceptions (goto i p s')) with (_exceptions s').
  change (items (_tasks (goto i p s'))) with (items (_tasks s')).
  rewrite Hlog. split_and!; [done..|].
  intros id func args kwargs Hx. apply Hc.
  rewrite Hin' in Hx. rewrite Hin.
  rewrite app_assoc in Hx. rewrite app_assoc.
  apply elem_of_app in Hx as [Hx|Hx]; apply elem_of_app; [left; by apply Hheld|by right].
Qed.

Lemma held_drop (q : list entry) w p x :
  x ∈ q ++ held (set_pc p w) → p ≠ Got x → x ∈ q ++ held w.
Proof.
  intros Hx Hp. apply elem_of_app in Hx as [Hx|Hx]; apply elem_of_app; [by left|].
  unfold held in Hx. cbn in Hx. destruct p; try by apply elem_of_nil in Hx.
  apply list_elem_of_singleton in Hx. congruence.
Qed.

Lemma worker_step_origin i s : origin_kept s (worker_step i s).
Proof.
  intros [HInv Ho]. split; [by apply worker_step_Inv|].
  pose proof Ho as (Ha & Hb & Hc).
  unfold worker_step.
  destruct (threads s !! i) as [w|] eqn:Hw; [|done].
  destruct (pc w) as [|[id func args kwargs|]|id|r|] eqn:Hpc; try done.
  - unfold tasks_get, Queue_get.
    destruct (items (_tasks s)) as [|x rest] eqn:Hq.
    + apply (origin_goto i w _ s); try done.
      intros x Hx. apply (held_drop _ _ (unwind Empty)); [done|].
      by destruct (unwind_cases Empty) as [->| ->].
    + apply (origin_goto i w _ s); try done.
      intros y. unfold held. cbn. rewrite Hq, Hpc, app_nil_r.
      rewrite elem_of_app, !elem_of_cons, elem_of_nil. tauto.
  - assert (put_outcomes s !! id = Some (func args kwargs)) as Hid.
    { apply Hc. apply elem_of_app. right.
      destruct (goto_ledger i w Dead s s Hw eq_refl) as (hs & _ & Hh & _).
      rewrite Hh. unfold held. rewrite Hpc. by left. }
    rewrite record_run. destruct (func args kwargs) as [v|e] eqn:Hcall.
    + apply (origin_goto i w _ s); try done.
      * cbn. intros id0 v0. destruct (decide (id = id0)) as [<-|Hne].
        -- rewrite lookup_insert_eq. by intros [= <-].
        -- rewrite lookup_insert_ne by done. apply Ha.
      * intros x Hx. by apply (held_drop _ _ (Marking id)).
    + destruct (is_Exception e) eqn:Hexc.
      * assert (∀ id0 e0, <[id:=e]> (_exceptions s) !! id0 = Some e0 →
                  put_outcomes s !! id0 = Some (Raise e0) ∧ is_Exception e0 = true) as HE.
        { intros id0 e0. destruct (decide (id = id0)) as [<-|Hne].
          - rewrite lookup_insert_eq. by intros [= <-].
          - rewrite lookup_insert_ne by done. apply Hb. }
        destruct (print_exceptions s); apply (origin_goto i w _ s); try done;
          intros x Hx; by apply (held_drop _ _ (Marking id)).
      * apply (origin_goto i w _ s); try done.
        intros x Hx. apply (held_drop _ _ (unwind e)); [done|].
        by destruct (unwind_cases e) as [->| ->].
  - apply (origin_goto i w _ s); try done.
    intros x Hx. by apply (held_drop _ _ (Returned (Some false))).
  - unfold tasks_task_done, Queue_task_done.
    destruct (unfinished_tasks (_tasks s)).
    + apply (origin_goto i w _ s); try done.
      intros x Hx.
      apply (held_drop _ _ (unwind (ValueError "task_done() called too many times"))); [done|].
      by destruct (unwind_cases (ValueError "task_done() called too many times")) as [->| ->].
    + apply (origin_goto i w _ s); try done.
      * unfold put_outcomes. cbn. by rewrite puts_task_done.
      * intros x Hx. by apply (held_drop _ _ (Returned (Some true))).
  - destruct (run_breaks r w s).
    + apply (origin_goto i w _ s); try done.
      intros x Hx. by apply (held_drop _ _ Dead).
    + apply (origin_goto i w _ s); try done.
      intros x Hx. by apply (held_drop _ _ Fetching).
Qed.

Lemma origin_kept_refl s : origin_kept s s.
Proof. by intros ?. Qed.

Lemma origin_kept_trans s1 s2 s3 :
  origin_kept s1 s2 → origin_kept s2 s3 → origin_kept s1 s3.
Proof. unfold origin_kept. auto. Qed.

Lemma put_sentinel_origin s : origin_kept s (snd (tasks_put _CYANIDE s)).
Proof.
  intros [HInv (Ha & Hb & Hc)]. split; [by apply put_sentinel_Inv|].
  assert (put_outcomes (snd (tasks_put _CYANIDE s)) = put_outcomes s) as Hlog.
  { unfold put_outcomes. cbn. rewrite puts_put, omap_app. cbn. apply app_nil_r. }
  unfold origin. rewrite Hlog. split_and!; [done..|].
  intros id func args kwargs Hx. apply Hc.
  change (Task id func args kwargs ∈ (items (_tasks s) ++ [_CYANIDE]) ++ in_flight s) in Hx.
  rewrite !elem_of_app, list_elem_of_singleton in Hx. rewrite elem_of_app.
  destruct Hx as [[?|?]|?]; [by left|done|by right].
Qed.

Lemma submit_origin func args kwargs : M_keeps origin_kept (submit func args kwargs).
Proof.
  intros s [HInv (Ha & Hb & Hc)]. split; [by apply submit_Inv|].
  pose proof (put_outcomes_length s HInv) as Hlen.
  rewrite submit_run.
  assert (put_outcomes (submitted func args kwargs s) = put_outcomes s ++ [func args kwargs])
    as Hlog.
  { unfold put_outcomes. cbn. by rewrite puts_put, omap_app. }
  change (origin (submitted func args kwargs s)). unfold origin. rewrite Hlog.
  split_and!.
  - intros id v Hv. apply lookup_app_l_Some. by apply Ha.
  - intros id e He. destruct (Hb id e He) as [Hl Hexc].
    split; [by apply lookup_app_l_Some|done].
  - intros id f a k Hx.
    change (Task id f a k
            ∈ (items (_tasks s) ++ [Task (_id_creator s) func args kwargs]) ++ in_flight s) in Hx.
    rewrite !elem_of_app, list_elem_of_singleton in Hx.
    destruct Hx as [[Hx| [= -> -> -> ->]]|Hx].
    + apply lookup_app_l_Some, Hc, elem_of_app. by left.
    + rewrite lookup_app_r by lia. by rewrite Hlen, Nat.sub_diag.
    + apply lookup_app_l_Some, Hc, elem_of_app. by right.
Qed.

Lemma run_script_origin cs : keeps origin_kept (run_script cs).
Proof.
  apply keeps_run_script;
    first [ exact origin_kept_refl | exact origin_kept_trans | exact worker_step_origin
          | exact put_sentinel_origin | exact submit_origin | idtac ].
  - intros s [HInv Ho]. split; [by apply discard_workers_Inv|done].
  - intros i s [HInv (Ha & Hb & Hc)]. split; [by apply interrupt_Inv|].
    split_and!; [done..|].
    intros id func args kwargs Hx. apply Hc.
    unfold in_flight in *. cbn in Hx. by rewrite alter_bind_same in Hx.
Qed.

Lemma init_origin size timeout pe : origin (__init__ size timeout pe).
Proof.
  split_and!.
  - intros id v Hv. cbn in Hv. by rewrite lookup_empty in Hv.
  - intros id e He. cbn in He. by rewrite lookup_empty in He.
  - intros id func args kwargs Hx. exfalso.
    unfold in_flight in Hx. cbn in Hx.
    apply list_elem_of_bind in Hx as (w & Hx & Hw).
    apply list_elem_of_fmap in Hw as (j & -> & _). by apply elem_of_nil in Hx.
Qed.

(** The outcomes of the tasks put are those of the calls to [submit] of
    the script, in the order of the script. *)
Lemma run_script_put_outcomes cs sch s s' sch' :
  run_script cs sch s = Fin (Ok tt) s' sch' →
  put_outcomes s' = put_outcomes s ++ submitted_outcomes cs.
Proof.
  assert (∀ i s0, same put_outcomes s0 (worker_step i s0)) as Hworker.
  { intros i s0. unfold same, put_outcomes. f_equal. apply worker_step_frame. }
  assert (∀ s0, same put_outcomes s0 (snd (tasks_put _CYANIDE s0))) as Hput.
  { intros s0. unfold same, put_outcomes. cbn. rewrite puts_put, omap_app. cbn.
    apply app_nil_r. }
  assert (∀ c, keeps (same put_outcomes) (run_call c)
               ∨ ∃ func args kwargs, c = c_submit func args kwargs) as Hcall.
  { intros c. destruct c; [right; by eexists _, _, _|left..];
      (apply keeps_run_call;
         first [ exact (same_refl _) | exact (same_trans _) | exact Hworker | exact Hput
               | by (intros; right) | by (unfold same; intros) ]). }
  assert (keeps (same put_outcomes) yield) as Hyield.
  { apply keeps_yield; first [ exact (same_refl _) | exact (same_trans _) | exact Hworker ]. }
  revert sch s. induction cs as [|c cs IH]; intros sch s Hrun.
  - simpl in Hrun. specialize (Hyield sch s). rewrite Hrun in Hyield.
    simpl. rewrite app_nil_r. exact Hyield.
  - cbn [run_script] in Hrun. unfold mbind at 1, B_bind at 1 in Hrun.
    pose proof (Hyield sch s) as Hy.
    destruct (yield sch s) as [[[]|e] s1 sch1|s1]; [|done..]. simpl in Hy.
    unfold mbind at 1, B_bind at 1 in Hrun.
    destruct (run_call c sch1 s1) as [[[]|e] s2 sch2|s2] eqn:Hc; [|done..].
    rewrite (IH _ _ Hrun).
    destruct (Hcall c) as [Hk|(func & args & kwargs & ->)].
    + specialize (Hk sch1 s1). rewrite Hc in Hk. simpl in Hk. unfold same in *.
      rewrite Hk, Hy. f_equal.
      destruct c; try done. exfalso.
      revert Hk. simpl in Hc. unfold attempt, atomic in Hc. rewrite submit_run in Hc.
      injection Hc as <- _. unfold put_outcomes. cbn. rewrite puts_put, omap_app. cbn.
      intros Hk. apply (f_equal length) in Hk. rewrite length_app in Hk. simpl in Hk. lia.
    + simpl in Hc. unfold attempt, atomic in Hc. rewrite submit_run in Hc.
      injection Hc as <- _. unfold same in Hy.
      unfold put_outcomes at 1. cbn. rewrite puts_put, omap_app. cbn.
      fold (put_outcomes s1). rewrite Hy. by rewrite <- app_assoc.
Qed.

(** The values that [g] selects from a list, seen as a map from the
    positions, are listed by ascending position. *)
Lemma view_from {A V} (g : A → option V) (l : list A) n :
  ∃ ks, StronglySorted lt ks
        ∧ (∀ k, k ∈ ks ↔ n ≤ k ∧ is_Some (l !! (k - n) ≫= g))
        ∧ Forall2 (λ k v, n ≤ k ∧ l !! (k - n) ≫= g = Some v) ks (omap g l).
Proof.
  revert n. induction l as [|x l IH]; intros n.
  - exists []. split_and!; [constructor| |constructor].
    intros k. rewrite elem_of_nil. split; [done|]. intros [_ [v Hv]]. done.
  - destruct (IH (S n)) as (ks & Hsorted & Hmem & Hall).
    assert (∀ k, S n ≤ k → (x :: l) !! (k - n) = l !! (k - S n)) as Hshift.
    { intros k Hk. by replace (k - n) with (S (k - S n)) by lia. }
    assert (Forall2 (λ k v, n ≤ k ∧ (x :: l) !! (k - n) ≫= g = Some v) ks (omap g l)) as Hall'.
    { eapply Forall2_impl; [exact Hall|]. intros k v [Hk Hv]. cbv beta. split; [lia|].
      by rewrite Hshift. }
    destruct (g x) as [v|] eqn:Hx.
    + exists (n :: ks). split_and!.
      * constructor; [done|]. apply Forall_forall. intros k Hk%Hmem. lia.
      * intros k. rewrite elem_of_cons, Hmem. split.
        -- intros [->|[Hk Hs]]; [|split; [lia|by rewrite Hshift]].
           split; [done|]. rewrite Nat.sub_diag. simpl. by rewrite Hx.
        -- intros [Hk Hs]. destruct (decide (k = n)) as [->|Hne]; [by left|right].
           split; [lia|]. rewrite <- Hshift by lia. done.
      * simpl. rewrite Hx. constructor; [|done].
        split; [done|]. rewrite Nat.sub_diag. simpl. by rewrite Hx.
    + exists ks. split_and!; [done| |by simpl; rewrite Hx].
      intros k. rewrite Hmem. split.
      * intros [Hk Hs]. split; [lia|by rewrite Hshift].
      * intros [Hk Hs]. destruct (decide (k = n)) as [->|Hne].
        -- rewrite Nat.sub_diag in Hs. simpl in Hs. rewrite Hx in Hs. by destruct Hs.
        -- split; [lia|]. rewrite <- Hshift by lia. done.
Qed.

Lemma view_of_list {A V} (g : A → option V) (l : list A) (d : gmap nat V) :
  (∀ i, d !! i = l !! i ≫= g) → ascending_view d (omap g l).
Proof.
  intros Hd. destruct (view_from g l 0) as (ks & Hsorted & Hmem & Hall).
  exists ks. split_and!; [done| |].
  - intros k. rewrite Hmem, Hd, Nat.sub_0_r. split; [by intros [_ ?]|]. split; [lia|done].
  - eapply Forall2_impl; [exact Hall|]. intros k v [_ Hv]. cbv beta.
    by rewrite Hd, <- (Nat.sub_0_r k).
Qed.

(** X14. Whatever is stored under a task id is the outcome of the
    submission with that number: in every state of a run, also after any
    steps of the workers, a value in [_returns] under [id] is what the
    callable of the [id]-th call to [submit] returned, and an error in
    [_exceptions] under [id] is the [Exception] it raised; nothing else is
    ever stored. *)
Theorem stored_outcome_is_of_its_submission
    (size timeout : nat) (pe : bool) (cs : list api) (sch sch' : schedule)
    (s : system) (b : list nat) :
  run_script cs sch (__init__ size timeout pe) = Fin (Ok tt) s sch' →
  (∀ id v, _returns (run_batch b s) !! id = Some v →
     submitted_outcomes cs !! id = Some (Ok v))
  ∧ (∀ id e, _exceptions (run_batch b s) !! id = Some e →
       submitted_outcomes cs !! id = Some (Raise e) ∧ is_Exception e = true).
Proof.
  intros Hrun.
  pose proof (run_script_origin cs sch (__init__ size timeout pe)) as Ho.
  rewrite Hrun in Ho. simpl in Ho.
  pose proof (run_script_put_outcomes _ _ _ _ _ Hrun) as Hlog.
  change (put_outcomes (__init__ size timeout pe)) with (@nil (result pyobj)) in Hlog.
  rewrite app_nil_l in Hlog.
  assert (Inv (run_batch b s) ∧ origin (run_batch b s)) as [_ (Ha & Hb & _)].
  { apply (run_batch_keeps origin_kept);
      [exact origin_kept_refl | exact origin_kept_trans | exact worker_step_origin |].
    apply Ho. split; [apply __init___Inv|apply init_origin]. }
  assert (put_outcomes (run_batch b s) = put_outcomes s) as Hsame.
  { apply (run_batch_keeps (same put_outcomes));
      [exact (same_refl _) | exact (same_trans _) |].
    intros i s0. unfold same, put_outcomes. f_equal. apply worker_step_frame. }
  rewrite Hsame, Hlog in Ha, Hb. by split.
Qed.

Lemma stored_outcome_is_of_its_submission_witness :
  (∀ id v, _returns (run_batch sched3_in_order submitted3) !! id = Some v →
     submitted_outcomes batch3 !! id = Some (Ok v))
  ∧ (∀ id e, _exceptions (run_batch sched3_in_order submitted3) !! id = Some e →
       submitted_outcomes batch3 !! id = Some (Raise e) ∧ is_Exception e = true).
Proof.
  apply (stored_outcome_is_of_its_submission 2 100 false batch3 sched3
           [[0; 1; 1; 1; 1; 1; 1; 1; 0; 0]] submitted3 sched3_in_order).
  vm_compute. reflexivity.
Defined.

(** X15. The promise of the class: once every task has been marked done
    (the queue's counter is zero, which is when [drain()] returns),
    [returns] is the list of the values returned by the submitted
    callables and [exceptions] the list of the errors they raised, both in
    the order of the calls to [submit], whatever the order in which the
    workers completed the tasks. *)
Theorem outcomes_gathered_in_submission_order
    (size timeout : nat) (pe : bool) (cs : list api) (sch sch' : schedule) (s : system) :
  run_script cs sch (__init__ size timeout pe) = Fin (Ok tt) s sch' →
  unfinished_tasks (_tasks s) = 0 →
  returns s = (Ok (omap value_of (submitted_outcomes cs)), s)
  ∧ exceptions s = (Ok (omap error_of (submitted_outcomes cs)), s).
Proof.
  intros Hrun Hzero.
  pose proof (run_script_origin cs sch (__init__ size timeout pe)) as Ho.
  rewrite Hrun in Ho. simpl in Ho.
  destruct Ho as [HInv (Ha & Hb & _)]; [split; [apply __init___Inv|apply init_origin]|].
  pose proof (run_script_put_outcomes _ _ _ _ _ Hrun) as Hlog.
  change (put_outcomes (__init__ size timeout pe)) with (@nil (result pyobj)) in Hlog.
  rewrite app_nil_l in Hlog.
  pose proof (put_outcomes_length s HInv) as Hlen.
  destruct (Inv_drained s HInv Hzero) as [_ Hall].
  pose proof HInv as (Hcount & _ & []).
  rewrite Hlog in Ha, Hb, Hlen. rewrite Hcount in Hall.
  assert (∀ i, _id_creator s ≤ i → submitted_outcomes cs !! i = None) as Hout.
  { intros i Hi. apply lookup_ge_None. lia. }
  assert (∀ i, _id_creator s ≤ i → _returns s !! i = None ∧ _exceptions s !! i = None) as Hnone.
  { intros i Hi.
    destruct (_returns s !! i) as [v|] eqn:Hv, (_exceptions s !! i) as [e|] eqn:He; try done;
      exfalso; (assert (i < _id_creator s) by (apply ledger_keys0; rewrite ?Hv, ?He; eauto)); lia. }
  split.
  - destruct (returns_spec s) as (vs & -> & Hview). do 2 f_equal.
    apply (ascending_view_unique _ _ _ Hview), view_of_list.
    intros i. destruct (decide (i < _id_creator s)) as [Hi|Hi].
    + destruct (Hall i Hi) as [[[v Hv] _]|[HR [e He]]].
      * by rewrite Hv, (Ha i v Hv).
      * destruct (Hb i e He) as [-> _]. by rewrite HR.
    + destruct (Hnone i ltac:(lia)) as [-> _]. by rewrite Hout by lia.
  - destruct (exceptions_spec s) as (es & -> & Hview). do 2 f_equal.
    apply (ascending_view_unique _ _ _ Hview), view_of_list.
    intros i. destruct (decide (i < _id_creator s)) as [Hi|Hi].
    + destruct (Hall i Hi) as [[[v Hv] HE]|[_ [e He]]].
      * by rewrite HE, (Ha i v Hv).
      * destruct (Hb i e He) as [-> _]. by rewrite He.
    + destruct (Hnone i ltac:(lia)) as [_ ->]. by rewrite Hout by lia.
Qed.

Lemma outcomes_gathered_in_submission_order_witness :
  returns drained3 = (Ok [PyInt 7; PyInt 7], drained3)
  ∧ exceptions drained3 = (Ok [Exc "ValueError" "boom"], drained3).
Proof.
  apply (outcomes_gathered_in_submission_order 2 100 false batch3_drain sched3 [] drained3).
  - vm_compute. reflexivity.
  - vm_compute. reflexivity.
Defined.

(** ** The path name helpers *)

Lemma grown_snoc call name sizes k1 k2 :
  grown call name (sizes ++ [k1]) → k1 < k2 → fst (call name k1) = k2 →
  grown call name ((sizes ++ [k1]) ++ [k2]).
Proof.
  intros Hg Hlt Hk. induction sizes as [|a [|b sizes] IH].
  - simpl. done.
  - simpl in *. destruct Hg as (? & ? & _). done.
  - change (grown call name (a :: (b :: sizes ++ [k1]) ++ [k2])).
    change (grown call name (a :: b :: sizes ++ [k1])) in Hg.
    destruct Hg as (Hab & Hcall & Hg). split_and!; [done..|]. by apply IH.
Qed.

Lemma path_name_loop_spec call name fuel size sizes value sizes' :
  path_name_loop call name fuel size sizes = Some (value, sizes') →
  grown call name (sizes ++ [size]) →
  ∃ last mid,
    sizes' = (sizes ++ [size]) ++ mid
    ∧ List.last sizes' 0 = last
    ∧ call name last = (fst (call name last), value)
    ∧ fst (call name last) ≤ last
    ∧ grown call name sizes'.
Proof.
  revert size sizes. induction fuel as [|fuel IH]; intros size sizes Hrun Hg; [done|].
  simpl in Hrun. destruct (call name size) as [needed v] eqn:Hcall.
  case_bool_decide as Hfit.
  - injection Hrun as <- <-. exists size, []. rewrite app_nil_r, last_last, Hcall.
    by split_and!.
  - destruct (IH needed (sizes ++ [size]) Hrun) as (last & mid & -> & Hlast & Hv & Hle & Hg').
    { apply grown_snoc; [done|lia|by rewrite Hcall]. }
    exists last, (needed :: mid). split_and!; try done.
    by rewrite <- (app_assoc _ [needed] mid).
Qed.

(** X16. When [get_short_path_name] or [get_long_path_name] returns, what
    it returns is what the buffer read after the last call, whose answer
    fit the buffer it was given; the first buffer has size zero, and every
    later one has the size the call before asked for, which was more than
    that call was given: the buffers only grow. *)
Theorem path_name_is_read_from_a_buffer_that_fit
    (call : win32_call) (fuel : nat) (name value : string) (sizes : list nat) :
  get_short_path_name call fuel name = Some (value, sizes)
  ∨ get_long_path_name call fuel name = Some (value, sizes) →
  (∃ rest, sizes = 0 :: rest)
  ∧ call name (List.last sizes 0) = (fst (call name (List.last sizes 0)), value)
  ∧ fst (call name (List.last sizes 0)) ≤ List.last sizes 0
  ∧ grown call name sizes.
Proof.
  intros Hrun.
  assert (path_name_loop call name fuel 0 [] = Some (value, sizes)) as Hloop
    by (by destruct Hrun).
  destruct (path_name_loop_spec call name fuel 0 [] value sizes Hloop I)
    as (last & mid & -> & <- & Hv & Hle & Hg).
  split_and!; try done. by exists mid.
Qed.

Lemma path_name_is_read_from_a_buffer_that_fit_witness :
  (∃ rest, [0; 9] = 0 :: rest)
  ∧ short_of_program_files "Program Files" (List.last [0; 9] 0)
    = (fst (short_of_program_files "Program Files" (List.last [0; 9] 0)), "PROGRA~1")
  ∧ fst (short_of_program_files "Program Files" (List.last [0; 9] 0)) ≤ List.last [0; 9] 0
  ∧ grown short_of_program_files "Program Files" [0; 9].
Proof.
  apply (path_name_is_read_from_a_buffer_that_fit short_of_program_files 5).
  left. vm_compute. reflexivity.
Defined.

(** X17. Two calls are enough when the call is consistent: if every
    buffer smaller than [required] is answered with [required] and a
    buffer of that size is answered with no more, both helpers return
    what the buffer of size [required] read, after the calls with the
    sizes [0] and [required]; when [required] is zero (the call reports
    failure at once) they return after the first call what the empty
    buffer read, and raise nothing. *)
Theorem path_name_takes_two_calls
    (call : win32_call) (fuel required : nat) (name : string) :
  (∀ size, size < required → fst (call name size) = required) →
  fst (call name required) ≤ required →
  get_short_path_name call (S (S fuel)) name
  = Some (snd (call name required), if required is 0 then [0] else [0; required])
  ∧ get_long_path_name call (S (S fuel)) name
    = Some (snd (call name required), if required is 0 then [0] else [0; required]).
Proof.
  intros Hsmall Hfit.
  assert (path_name_loop call name (S (S fuel)) 0 []
          = Some (snd (call name required), if required is 0 then [0] else [0; required]))
    as Hrun; [|by split].
  destruct required as [|r].
  - simpl. destruct (call name 0) as [needed v]. simpl in Hfit.
    by rewrite bool_decide_eq_true_2.
  - simpl. pose proof (Hsmall 0 ltac:(lia)) as H0.
    destruct (call name 0) as [needed v]. simpl in H0. subst needed.
    rewrite bool_decide_eq_false_2 by lia.
    destruct (call name (S r)) as [needed' v']. simpl in Hfit.
    by rewrite bool_decide_eq_true_2.
Qed.

Lemma path_name_takes_two_calls_witness :
  get_short_path_name short_of_program_files 2 "Program Files"
  = Some ("PROGRA~1", [0; 9])
  ∧ get_long_path_name short_of_program_files 2 "Program Files"
    = Some ("PROGRA~1", [0; 9]).
Proof.
  apply (path_name_takes_two_calls short_of_program_files 0 9 "Program Files").
  - intros size Hsize. unfold short_of_program_files.
    by rewrite bool_decide_eq_true_2.
  - vm_compute. lia.
Defined.



(** ** Workers that were told to stop *)

Lemma budgets_goto i w p s s' :
  threads s !! i = Some w → threads s' = threads s →
  budgets (goto i p s') + budget w = budgets s + budget (set_pc p w).
Proof.
  intros Hw Hts.
  destruct (alter_split (set_pc p) _ _ _ Hw) as (l1 & l2 & Hsplit & Halter).
  unfold budgets, goto. cbn [threads set_threads].
  rewrite Hts, Halter, Hsplit, !sum_list_with_app. simpl. lia.
Qed.

Lemma budgets_interrupt i s :
  budgets (set_threads (alter (set_keyboard_interrupted true) i (threads s)) s) = budgets s.
Proof.
  unfold budgets. cbn. generalize (threads s). intros ts. revert i.
  induction ts as [|w ts IH]; intros [|i]; try done.
  change (alter (set_keyboard_interrupted true) (S i) (w :: ts))
    with (w :: alter (set_keyboard_interrupted true) i ts).
  simpl. by rewrite IH.
Qed.

Lemma budgets_bound s : budgets s ≤ length (threads s).
Proof.
  unfold budgets. induction (threads s) as [|w ts IH]; simpl; [done|].
  assert (budget w ≤ 1); [|lia].
  unfold budget. by destruct (pc w) as [|[]| | |]; lia.
Qed.

(** With the flag set a worker marks at most one more task done: what the
    counter has above the budgets of the workers, it keeps. *)
Lemma worker_step_budgets i s :
  all_interrupted s →
  unfinished_tasks (_tasks s) + budgets (worker_step i s)
  ≤ unfinished_tasks (_tasks (worker_step i s)) + budgets s.
Proof.
  intros Hflags.
  destruct (threads s !! i) as [w|] eqn:Hw.
  2: { unfold worker_step. by rewrite Hw. }
  pose proof (Forall_lookup_1 _ _ _ _ Hflags Hw) as Hflag. cbv beta in Hflag.
  rewrite (worker_step_at i w s Hw).
  destruct (pc w) as [|[id func args kwargs|]|id|r|] eqn:Hpc.
  - unfold tasks_get, Queue_get. destruct (items (_tasks s)) as [|x rest] eqn:Hq.
    + pose proof (budgets_goto i w (unwind Empty) s (set_tasks (_tasks s) s) Hw eq_refl) as Hb.
      unfold budget in Hb. rewrite Hpc in Hb.
      destruct (unwind_cases Empty) as [Hu|Hu]; rewrite Hu in *; cbn in Hb |- *; lia.
    + match goal with |- context [goto i ?p ?s1] =>
        pose proof (budgets_goto i w p s s1 Hw eq_refl) as Hb end.
      unfold budget in Hb. rewrite Hpc in Hb. cbn in Hb |- *. destruct x; lia.
  - rewrite record_run. destruct (func args kwargs) as [v|e].
    { match goal with |- context [goto i ?p ?s1] =>
        pose proof (budgets_goto i w p s s1 Hw eq_refl) as Hb end.
      unfold budget in Hb. rewrite Hpc in Hb. cbn in Hb |- *. lia. }
    destruct (is_Exception e).
    + destruct (print_exceptions s);
        match goal with |- context [goto i ?p ?s1] =>
          pose proof (budgets_goto i w p s s1 Hw eq_refl) as Hb end;
        unfold budget in Hb; rewrite Hpc in Hb; cbn in Hb |- *; lia.
    + match goal with |- context [goto i ?p ?s1] =>
        pose proof (budgets_goto i w p s s1 Hw eq_refl) as Hb end.
      unfold budget in Hb. rewrite Hpc in Hb.
      destruct (unwind_cases e) as [Hu|Hu]; rewrite Hu in *; cbn in Hb |- *; lia.
  - match goal with |- context [goto i ?p ?s1] =>
      pose proof (budgets_goto i w p s s1 Hw eq_refl) as Hb end.
    unfold budget in Hb. rewrite Hpc in Hb. cbn in Hb |- *. lia.
  - unfold tasks_task_done, Queue_task_done.
    destruct (unfinished_tasks (_tasks s)) as [|U'] eqn:HU.
    + match goal with |- context [goto i ?p ?s1] =>
        pose proof (budgets_goto i w p s s1 Hw eq_refl) as Hb end.
      unfold budget in Hb. rewrite Hpc in Hb.
      destruct (unwind_cases (ValueError "task_done() called too many times")) as [Hu|Hu];
        rewrite Hu in *; cbn in Hb |- *; lia.
    + match goal with |- context [goto i ?p ?s1] =>
        pose proof (budgets_goto i w p s s1 Hw eq_refl) as Hb end.
      unfold budget in Hb. rewrite Hpc in Hb. cbn in Hb |- *. lia.
  - assert (run_breaks r w s = true) as ->.
    { unfold run_breaks. rewrite Hflag. by destruct (negb (truthy r)). }
    pose proof (budgets_goto i w Dead s s Hw eq_refl) as Hb.
    unfold budget in Hb. rewrite Hpc in Hb. cbn in Hb |- *. lia.
  - lia.
Qed.

Lemma worker_step_interrupted i s : all_interrupted s → all_interrupted (worker_step i s).
Proof.
  unfold all_interrupted. intros Hflags.
  assert (flags (worker_step i s) = flags s) as Hsame by apply worker_step_frame.
  assert (∀ ts, Forall (λ w, keyboard_interrupted w = true) ts
                ↔ Forall (λ b, b = true) (keyboard_interrupted <$> ts)) as Hfmap.
  { intros ts. by rewrite Forall_fmap. }
  apply Hfmap. apply Hfmap in Hflags. unfold flags in Hsame. by rewrite Hsame.
Qed.

Lemma run_batch_budgets b s :
  all_interrupted s →
  all_interrupted (run_batch b s)
  ∧ unfinished_tasks (_tasks s) + budgets (run_batch b s)
    ≤ unfinished_tasks (_tasks (run_batch b s)) + budgets s.
Proof.
  unfold run_batch. revert s. induction b as [|i b IH]; intros s Hflags; simpl; [by split|].
  destruct (IH (worker_step i s) (worker_step_interrupted i s Hflags)) as [Hf Hle].
  split; [done|]. pose proof (worker_step_budgets i s Hflags). lia.
Qed.

Lemma abandoned_step i s : abandoned s → abandoned (worker_step i s).
Proof.
  intros [Hflags Hlt]. split; [by apply worker_step_interrupted|].
  pose proof (worker_step_budgets i s Hflags). lia.
Qed.

Lemma abandoned_blocks_close sch s : abandoned s → ∃ s', close false sch s = Blocked s'.
Proof.
  intros Hs.
  destruct (drain_blocked_by abandoned) with (sch := sch) (s := s) as [s' Hdrain];
    [|exact abandoned_step|done|].
  { intros s0 [_ Hlt]. lia. }
  exists s'. unfold close. unfold mbind at 1, B_bind at 1. by rewrite Hdrain.
Qed.

(** X19. A worker whose interrupt flag is set marks at most one more
    task done, the one it holds or fetches next, and then ends: once all
    flags are set the counter of the queue drops by no more than the
    number of workers, so when more tasks than workers are unfinished
    neither [drain()] nor [close()] ever returns. *)
Theorem interrupted_workers_finish_one_task_each
    (s : system) (b : list nat) (sch : schedule) :
  all_interrupted s →
  unfinished_tasks (_tasks s)
  ≤ unfinished_tasks (_tasks (run_batch b s)) + length (threads s)
  ∧ (length (threads s) < unfinished_tasks (_tasks s) →
       (∃ s', drain sch s = Blocked s') ∧ (∃ s', close false sch s = Blocked s')).
Proof.
  intros Hflags. pose proof (budgets_bound s) as Hbound. split.
  - destruct (run_batch_budgets b s Hflags) as [_ Hle]. lia.
  - intros Hlt. assert (abandoned s) as Hs by (split; [done|lia]).
    split; [|by apply abandoned_blocks_close].
    apply (drain_blocked_by abandoned); [|exact abandoned_step|done].
    intros s0 [_ ?]. lia.
Qed.

Example terminating2_counts :
  unfinished_tasks (_tasks terminating2) = 2
  ∧ length (threads terminating2) = 1
  ∧ unfinished_tasks (_tasks (run_batch [0; 0; 0; 0; 0; 0; 0; 0] terminating2)) = 1.
Proof. by vm_compute. Qed.

Lemma interrupted_workers_finish_one_task_each_witness :
  unfinished_tasks (_tasks terminating2)
  ≤ unfinished_tasks (_tasks (run_batch [0; 0; 0; 0] terminating2)) + length (threads terminating2)
  ∧ (length (threads terminating2) < unfinished_tasks (_tasks terminating2) →
       (∃ s', drain [[0; 0; 0; 0]] terminating2 = Blocked s')
       ∧ (∃ s', close false [[0; 0; 0; 0]] terminating2 = Blocked s')).
Proof.
  apply (interrupted_workers_finish_one_task_each terminating2).
  vm_compute. repeat constructor.
Defined.

(** The loop of [terminate] when the workers take no step meanwhile. *)
Lemma interrupt_all_quiet (l : list nat) sch s :
  ∃ s1,
    for_each l (λ i,
      yield;;
      atomic (modify (λ s, set_threads (alter (set_keyboard_interrupted true) i (threads s)) s)))
      (replicate (length l) [] ++ sch) s = Fin (Ok tt) s1 sch
    ∧ _tasks s1 = _tasks s
    ∧ budgets s1 = budgets s
    ∧ flags_stay s s1
    ∧ ∀ i, i ∈ l → i < length (flags s) → flags s1 !! i = Some true.
Proof.
  revert s. induction l as [|i l IH]; intros s.
  - exists s. split_and!; [done..|apply flags_stay_refl|].
    intros i Hi. by apply elem_of_nil in Hi.
  - set (sb := set_threads (alter (set_keyboard_interrupted true) i (threads s)) s).
    destruct (IH sb) as (s1 & Hrun & Htasks & Hbudgets & Hstay & Hset).
    exists s1.
    pose proof (interrupt_flags i s) as Hb. fold sb in Hb.
    split_and!.
    + rewrite <- Hrun. by apply for_each_cons.
    + by rewrite Htasks.
    + rewrite Hbudgets. apply budgets_interrupt.
    + by eapply flags_stay_trans.
    + intros j Hj Hlen. destruct (decide (j = i)) as [->|Hne].
      * apply Hstay. unfold sb. rewrite flags_interrupt, list_lookup_alter_eq.
        apply lookup_lt_is_Some in Hlen as [x ->]. done.
      * apply elem_of_cons in Hj as [?|Hj]; [done|]. apply Hset; [done|].
        destruct Hb as [-> _]. done.
Qed.

(** X20. [terminate()] tells the workers to stop and then waits for
    tasks that nobody is left to run: when more tasks are unfinished than
    there are workers and the workers take no step while their flags are
    being set, every worker ends after one task at most and
    [terminate()] never returns, whatever the workers do afterwards. *)
Theorem terminate_waits_for_tasks_nobody_runs (s : system) (sch : schedule) :
  reachable s →
  _workers s ≠ None →
  length (threads s) < unfinished_tasks (_tasks s) →
  ∃ s', terminate (replicate (length (threads s)) [] ++ sch) s = Blocked s'.
Proof.
  intros (_ & Hws & _)%reachable_Inv Hsome Hlt.
  destruct Hws as [Hnone|Hl]; [done|].
  set (n := length (threads s)) in *.
  assert (atomic iter_workers (replicate n [] ++ sch) s
          = Fin (Ok (seq 0 n)) s (replicate n [] ++ sch)) as Hiter.
  { unfold atomic, iter_workers. unfold_M. cbv beta. by rewrite Hl. }
  unfold terminate. rewrite (B_bind_run _ _ _ _ _ _ _ Hiter).
  pose proof (interrupt_all_quiet (seq 0 n) sch s) as (s1 & Hloop & Htasks & Hbudgets & Hstay & Hset).
  rewrite length_seq in Hloop.
  rewrite (B_bind_run _ _ _ _ _ _ _ Hloop).
  assert (abandoned s1) as Hs1.
  { split.
    - apply Forall_lookup. intros i w Hw.
      assert (flags s1 !! i = Some true) as Hi.
      { destruct Hstay as [Hlen _]. apply lookup_lt_Some in Hw.
        unfold flags in Hlen. rewrite !length_fmap in Hlen.
        apply Hset; [apply elem_of_seq; lia|]. unfold flags. rewrite length_fmap. lia. }
      unfold flags in Hi. rewrite list_lookup_fmap, Hw in Hi. by injection Hi.
    - rewrite Htasks, Hbudgets. pose proof (budgets_bound s). lia. }
  assert (∀ b s0, abandoned s0 → abandoned (run_batch b s0)) as Hbatch.
  { intros b. unfold run_batch. induction b as [|i b IH]; intros s0 HP; [done|].
    simpl. by apply IH, abandoned_step. }
  unfold mbind at 1, B_bind at 1.
  destruct sch as [|b sch]; simpl.
  - destruct (abandoned_blocks_close [] s1 Hs1) as [s' ->]. by eexists.
  - destruct (abandoned_blocks_close sch (run_batch b s1) (Hbatch b s1 Hs1)) as [s' ->].
    by eexists.
Qed.

Lemma terminate_waits_for_tasks_nobody_runs_witness :
  ∃ s', terminate (replicate (length (threads submitted2)) [] ++ [[0; 0; 0; 0; 0; 0; 0; 0]])
          submitted2 = Blocked s'.
Proof.
  apply (terminate_waits_for_tasks_nobody_runs submitted2).
  - exists 1, 100, false, [c_submit ok7 [] []; c_submit boom [] []], [], [].
    vm_compute. reflexivity.
  - vm_compute. discriminate.
  - vm_compute. lia.
Defined.
